(** * BLE notification / command bridge: the two example scripts

    A shallow embedding of [examples/devel_notifications.py] and
    [examples/enable_response.py], and the properties of the bridge that
    hold (or fail) on them.

    Python values are modelled as follows.
    - [str]: the list of its Unicode code points ([list Z]);
    - [bytes] / [bytearray]: the list of its bytes ([list Z], each in 0..255);
    - [float]: an IEEE 754 binary64 value, [spec_float] with [prec = 53]
      and [emax = 1024];
    - command-line arguments, UUIDs and device names are only compared and
      passed on, they are kept as Rocq [string]s;
    - the [argparse] namespace is a finite map from attribute names to
      values;
    - the [multiprocessing.Queue] is the list of the items it holds, oldest
      first. *)

From Stdlib Require Import ZArith Lia Bool Ascii String.
From Stdlib Require Import SpecFloat.
From stdpp Require Import base option list gmap strings.

Local Open Scope Z_scope.

(** ** Python strings *)

Module Str.

Definition str := list Z.
Definition bytes := list Z.

(** A string literal of the source, as code points. *)
Definition lit (s : string) : str :=
  map (fun a => Z.of_N (N_of_ascii a)) (list_ascii_of_string s).

(** [s.startswith(p)] *)
Fixpoint startswith (p s : str) : bool :=
  match p, s with
  | [], _ => true
  | _ :: _, [] => false
  | a :: p', b :: s' => (a =? b) && startswith p' s'
  end.

(** [p in s]: [p] occurs in [s] as a contiguous substring. *)
Fixpoint contains (p s : str) : bool :=
  startswith p s ||
  match s with
  | [] => false
  | _ :: s' => contains p s'
  end.

(** [s.split(sep)] for a one-character separator: the pieces between the
    occurrences of [sep]; there is always at least one piece. *)
Fixpoint split (sep : Z) (s : str) : list str :=
  match s with
  | [] => [[]]
  | c :: s' =>
      if c =? sep then [] :: split sep s'
      else match split sep s' with
           | [] => [[c]]
           | t :: ts => (c :: t) :: ts
           end
  end.

(** [str.isspace] on the ASCII range: the characters Python's [str]
    methods treat as white space. *)
Definition isspace_ascii (c : Z) : bool :=
  ((9 <=? c) && (c <=? 13)) || ((28 <=? c) && (c <=? 32)).

Fixpoint lstrip (sp : Z -> bool) (s : str) : str :=
  match s with
  | [] => []
  | c :: s' => if sp c then lstrip sp s' else s
  end.

Definition rstrip (sp : Z -> bool) (s : str) : str :=
  rev (lstrip sp (rev s)).

(** [s.strip()] with the white-space test [sp]. *)
Definition strip (sp : Z -> bool) (s : str) : str :=
  rstrip sp (lstrip sp s).

(** *** UTF-8 *)

Definition is_cont (b : Z) : bool := (0x80 <=? b) && (b <=? 0xBF).
Definition in_range (lo hi b : Z) : bool := (lo <=? b) && (b <=? hi).

(** [data.decode("utf-8")] with the default strict error handler: [None]
    is [UnicodeDecodeError].  Overlong forms, surrogates, code points
    above U+10FFFF, stray continuation bytes and truncated sequences are
    all rejected.  [x mod 64] is [x & 0x3F], [* 64] is [<< 6]. *)
Fixpoint decode_utf8 (bs : bytes) : option str :=
  match bs with
  | [] => Some []
  | b0 :: r0 =>
      if in_range 0 0x7F b0 then cons b0 <$> decode_utf8 r0
      else if in_range 0xC2 0xDF b0 then
        match r0 with
        | b1 :: r1 =>
            if is_cont b1
            then cons ((b0 mod 32) * 64 + b1 mod 64) <$> decode_utf8 r1
            else None
        | _ => None
        end
      else if in_range 0xE0 0xEF b0 then
        match r0 with
        | b1 :: b2 :: r2 =>
            if in_range (if b0 =? 0xE0 then 0xA0 else 0x80)
                        (if b0 =? 0xED then 0x9F else 0xBF) b1
               && is_cont b2
            then cons ((b0 mod 16) * 4096 + (b1 mod 64) * 64 + b2 mod 64)
                   <$> decode_utf8 r2
            else None
        | _ => None
        end
      else if in_range 0xF0 0xF4 b0 then
        match r0 with
        | b1 :: b2 :: b3 :: r3 =>
            if in_range (if b0 =? 0xF0 then 0x90 else 0x80)
                        (if b0 =? 0xF4 then 0x8F else 0xBF) b1
               && is_cont b2 && is_cont b3
            then cons ((b0 mod 8) * 262144 + (b1 mod 64) * 4096
                       + (b2 mod 64) * 64 + b3 mod 64)
                   <$> decode_utf8 r3
            else None
        | _ => None
        end
      else None
  end.

(** The UTF-8 encoding of one code point; [None] for a surrogate or a
    value that is no code point. *)
Definition encode_char (c : Z) : option bytes :=
  if in_range 0 0x7F c then Some [c]
  else if in_range 0x80 0x7FF c then
    Some [0xC0 + c / 64; 0x80 + c mod 64]
  else if in_range 0xD800 0xDFFF c then None
  else if in_range 0x800 0xFFFF c then
    Some [0xE0 + c / 4096; 0x80 + (c / 64) mod 64; 0x80 + c mod 64]
  else if in_range 0x10000 0x10FFFF c then
    Some [0xF0 + c / 262144; 0x80 + (c / 4096) mod 64;
          0x80 + (c / 64) mod 64; 0x80 + c mod 64]
  else None.

(** [s.encode("utf-8")]: [None] is [UnicodeEncodeError]. *)
Fixpoint encode_utf8 (s : str) : option bytes :=
  match s with
  | [] => Some []
  | c :: s' =>
      match encode_char c, encode_utf8 s' with
      | Some bs, Some r => Some (bs ++ r)
      | _, _ => None
      end
  end.

End Str.

Import Str.

(** ** Python floats *)

Module Float.

Definition prec : Z := 53.
Definition emax : Z := 1024.

(** [a > b] on floats: false as soon as one side is NaN. *)
Definition gt (a b : spec_float) : bool := SFltb b a.

Definition Py_ISSPACE (c : Z) : bool := (c =? 32) || in_range 9 13 c.
Definition Py_ISDIGIT (c : Z) : bool := in_range 48 57 c.

(** The value of a string of ASCII digits, most significant first. *)
Definition digits_value (ds : list Z) : Z :=
  fold_left (fun acc d => 10 * acc + (d - 48)) ds 0.

Fixpoint span (p : Z -> bool) (s : str) : str * str :=
  match s with
  | [] => ([], [])
  | c :: s' =>
      if p c then let '(a, b) := span p s' in (c :: a, b) else ([], s)
  end.

(** An optional sign: [(negative, rest)]. *)
Definition sign (s : str) : bool * str :=
  match s with
  | 45 :: r => (true, r)
  | 43 :: r => (false, r)
  | _ => (false, s)
  end.

(** The binary64 value nearest to [(-1)^neg * m * 10^e10], ties to even,
    as the correctly rounded string conversion gives it: overflow gives an
    infinity and underflow a (signed) zero or a subnormal. *)
Definition of_decimal (neg : bool) (m e10 : Z) : spec_float :=
  match m with
  | Zpos p =>
      if 0 <=? e10
      then binary_normalize prec emax
             ((if neg then - m else m) * 10 ^ e10) 0 false
      else SFdiv prec emax (S754_finite neg p 0)
             (S754_finite false (Z.to_pos (10 ^ (- e10))) 0)
  | _ => S754_zero neg
  end.

(** The exponent part [[eE][+-]?digits]: when no digit follows, nothing is
    consumed and the [e] is left in the input. *)
Definition exponent (s : str) : Z * str :=
  match s with
  | c :: r =>
      if (c =? 101) || (c =? 69) then
        let '(neg, r1) := sign r in
        let '(ds, r2) := span Py_ISDIGIT r1 in
        match ds with
        | [] => (0, s)
        | _ => ((if neg then - digits_value ds else digits_value ds), r2)
        end
      else (0, s)
  | [] => (0, s)
  end.

(** The decimal grammar of [strtod]: digits, an optional point and more
    digits (at least one digit in all), an optional exponent.  [None]
    when no number starts here. *)
Definition decimal (neg : bool) (s : str) : option (spec_float * str) :=
  let '(ip, r1) := span Py_ISDIGIT s in
  let '(fp, r2) := match r1 with
                   | 46 :: r => span Py_ISDIGIT r
                   | _ => ([], r1)
                   end in
  match ip ++ fp with
  | [] => None
  | ds =>
      let '(e, r3) := exponent r2 in
      Some (of_decimal neg (digits_value ds) (e - Z.of_nat (length fp)), r3)
  end.

Definition lower (c : Z) : Z := if in_range 65 90 c then c + 32 else c.

(** [inf], [infinity] and [nan], in any case. *)
Definition inf_or_nan (neg : bool) (s : str) : option (spec_float * str) :=
  let l := map lower s in
  if startswith (lit "inf") l then
    if startswith (lit "inity") (drop 3 l)
    then Some (S754_infinity neg, drop 8 s)
    else Some (S754_infinity neg, drop 3 s)
  else if startswith (lit "nan") l then Some (S754_nan, drop 3 s)
  else None.

(** [PyOS_string_to_double] on the whole string: a sign, then a decimal
    number or else [inf]/[nan], and nothing left over. *)
Definition strtod (s : str) : option spec_float :=
  let '(neg, r) := sign s in
  match decimal neg r with
  | Some (x, []) => Some x
  | Some (_, _ :: _) => None
  | None =>
      match inf_or_nan neg r with
      | Some (x, []) => Some x
      | _ => None
      end
  end.

(** A single underscore is allowed between two digits, and is dropped. *)
Fixpoint underscores (prev : Z) (s : str) : option str :=
  match s with
  | [] => if prev =? 95 then None else Some []
  | c :: s' =>
      if c =? 95 then
        if Py_ISDIGIT prev then underscores c s' else None
      else if (prev =? 95) && negb (Py_ISDIGIT c) then None
      else cons c <$> underscores c s'
  end.

Section Unicode.

(** The Unicode database of the interpreter, outside ASCII: the white
    space test and the value of a decimal digit. *)
Variable Py_UNICODE_ISSPACE : Z -> bool.
Variable Py_UNICODE_TODECIMAL : Z -> option Z.

(** Non-ASCII white space becomes a space and a non-ASCII decimal digit
    its ASCII digit; at any other non-ASCII character the text is cut
    after a [?], which no number contains. *)
Fixpoint to_ascii (s : str) : str :=
  match s with
  | [] => []
  | ch :: r =>
      if ch <? 128 then ch :: to_ascii r
      else if Py_UNICODE_ISSPACE ch then 32 :: to_ascii r
      else match Py_UNICODE_TODECIMAL ch with
           | Some d => (48 + d) :: to_ascii r
           | None => [63]
           end
  end.

(** [float(s)] for a [str]: [None] is [ValueError]. *)
Definition float (s : str) : option spec_float :=
  underscores 0 (strip Py_ISSPACE (to_ascii s)) ≫= strtod.

End Unicode.

(** The characters a numeric token can contain once it is brought to
    ASCII: digits, signs, the point, and the letters of the exponent and
    of [inf], [infinity] and [nan]. *)
Definition allowed (c : Z) : bool :=
  Py_ISDIGIT c
  || bool_decide (lower c ∈ [43; 45; 46; 101; 105; 110; 102; 116; 121; 97]).

(** The literal [0.50] of the source. *)
Definition threshold : spec_float :=
  default S754_nan (strtod (lit "0.50")).

End Float.

(** ** Exceptions, effects and the world the scripts run in *)

Inductive value_error :=
  | could_not_convert (token : str)   (* float(token) *)
  | not_enough_values (got : nat)     (* unpacking to six names *)
  | too_many_values.

Inductive exn :=
  | ValueError (why : value_error)
  | UnicodeDecodeError
  | UnicodeEncodeError
  | TypeError
  | BleakError (code : Z)             (* any failure of the BLE library *)
  | CancelledError
  | SystemExit (status : Z).

(** [isinstance(e, ValueError)]: the Unicode errors are subclasses. *)
Definition is_ValueError (e : exn) : bool :=
  match e with
  | ValueError _ | UnicodeDecodeError | UnicodeEncodeError => true
  | _ => false
  end.

(** [isinstance(e, Exception)]: [CancelledError] and [SystemExit] derive
    from [BaseException] only. *)
Definition is_Exception (e : exn) : bool :=
  match e with
  | CancelledError | SystemExit _ => false
  | _ => true
  end.

Record BLEDevice := { address : string; name : string }.

(** The values found in an [argparse] namespace. *)
Inductive value :=
  | VNone
  | VStr (s : string)
  | VBool (b : bool).

(** Calls into the BLE library. *)
Inductive ble_op :=
  | find_device_by_name (n : option string) (use_bdaddr : option bool)
  | find_device_by_address (a : string) (use_bdaddr : bool)
  | connect (d : BLEDevice)
  | disconnect
  | start_notify (uuid : string)
  | stop_notify (uuid : string)
  | write_gatt_char (uuid : string) (data : bytes).

(** What [enable_response.py] prints. *)
Inductive line :=
  | Received_command_from_queue (message : str)
  | Sent_command (command : str)
  | Parsed_IMU_Data (gx gy gz ax ay az : spec_float)
  | Error_processing_queue (e : exn)
  | Unexpected_error (e : exn)
  | Scanning_for_device
  | Device_not_found (device_name : string)
  | Connected_to_Nano.

(** What [devel_notifications.py] logs. *)
Inductive record :=
  | info_Received_notification (decoded_data : str)
  | error_Error_handling_notification (e : exn)
  | info_Starting_scan
  | error_Could_not_find_address (a : string)
  | error_Could_not_find_name (n : option string)
  | info_Connecting
  | info_Connected
  | info_Sending_command (command : str)
  | info_Notification_listening_cancelled.

(** The observable effects, in the order they happen.  A BLE call is
    recorded with its outcome: [None] when it went through, [Some e] when it
    raised [e]. *)
Inductive event :=
  | Print (l : line)
  | Log (r : record)
  | Ble (op : ble_op) (outcome : option exn)
  | Sleep (seconds : Z)
  | Process_start (target : string) (args : list value)
  | Process_join.

(** - [queue]: the shared [multiprocessing.Queue()], oldest item first; it is
      created without [maxsize], so [put] never finds it full (the limit of
      the platform's semaphores is not modelled);
    - [air]: the devices a scan sees;
    - [faults]: the outcomes of the coming calls into the BLE library, one
      entry per call, [None] (or no entry left) for a call that succeeds;
    - [trace]: the effects so far. *)
Record World := {
  queue : list str;
  air : list BLEDevice;
  faults : list (option exn);
  trace : list event
}.

Definition set_queue (q : list str) (w : World) : World :=
  {| queue := q; air := air w; faults := faults w; trace := trace w |}.
Definition set_faults (f : list (option exn)) (w : World) : World :=
  {| queue := queue w; air := air w; faults := f; trace := trace w |}.
Definition add_event (e : event) (w : World) : World :=
  {| queue := queue w; air := air w; faults := faults w;
     trace := trace w ++ [e] |}.

(** The outcome of running a piece of a script: it returned, it raised, it
    waits for ever on an empty queue, or it is still inside [while True]
    when the iterations under consideration are used up. *)
Inductive Res (A : Type) :=
  | Ok (a : A)
  | Raise (e : exn)
  | Blocked
  | Running.
Arguments Ok {A} a.
Arguments Raise {A} e.
Arguments Blocked {A}.
Arguments Running {A}.

Definition M (A : Type) : Type := World -> Res A * World.

Definition ret {A} (a : A) : M A := fun w => (Ok a, w).
Definition raise {A} (e : exn) : M A := fun w => (Raise e, w).
Definition bind {A B} (m : M A) (k : A -> M B) : M B :=
  fun w =>
    match m w with
    | (Ok a, w') => k a w'
    | (Raise e, w') => (Raise e, w')
    | (Blocked, w') => (Blocked, w')
    | (Running, w') => (Running, w')
    end.

Declare Scope py_scope.
Delimit Scope py_scope with py.
Notation "x ← y ; z" := (bind y (fun x => z))
  (at level 20, y at level 100, z at level 200, only parsing) : py_scope.
Notation "' x ← y ; z" := (bind y (fun x => z))
  (at level 20, x pattern, y at level 100, z at level 200, only parsing)
  : py_scope.
Notation "x ;; z" := (bind x (fun _ => z))
  (at level 100, z at level 200, only parsing, right associativity)
  : py_scope.
Local Open Scope py_scope.

(** Reading the world. *)
Definition gets {A} (f : World -> A) : M A := fun w => (Ok (f w), w).

Definition emit (e : event) : M unit := fun w => (Ok tt, add_event e w).
Definition print (l : line) : M unit := emit (Print l).
Definition log (r : record) : M unit := emit (Log r).

(** [await asyncio.sleep(seconds)] *)
Definition sleep (seconds : Z) : M unit := emit (Sleep seconds).

(** Lifting a pure operation that can fail with [e]. *)
Definition or_raise {A} (e : exn) (o : option A) : M A :=
  match o with
  | Some a => ret a
  | None => raise e
  end.

(** [try: body except ...: handler]: [handler e] is [None] when no clause
    matches [e]. *)
Definition try_except {A} (body : M A) (handler : exn -> option (M A)) : M A :=
  fun w =>
    match body w with
    | (Raise e, w') =>
        match handler e with
        | Some h => h w'
        | None => (Raise e, w')
        end
    | r => r
    end.

(** [try: body finally: fin]: [fin] runs when [body] returns or raises, and
    an exception of [fin] replaces the outcome of [body]. *)
Definition try_finally {A} (body : M A) (fin : M unit) : M A :=
  fun w =>
    match body w with
    | (Ok a, w') => (fin;; ret a) w'
    | (Raise e, w') => (fin;; raise e) w'
    | r => r
    end.

(** [while True: body], looked at for [n] iterations. *)
Fixpoint while_True (n : nat) (body : M unit) : M unit :=
  match n with
  | O => fun w => (Running, w)
  | S n' => body;; while_True n' body
  end.

(** *** The queue *)

(** [queue.put(item)] *)
Definition queue_put (item : str) : M unit :=
  fun w => (Ok tt, set_queue (queue w ++ [item]) w).

(** [queue.get()]: blocks while the queue is empty. *)
Definition queue_get : M str :=
  fun w =>
    match queue w with
    | [] => (Blocked, w)
    | item :: q => (Ok item, set_queue q w)
    end.

(** [queue.empty()] *)
Definition queue_empty : M bool :=
  gets (fun w => bool_decide (queue w = [])).

(** *** The BLE library *)

(** One call: the next entry of [faults] decides whether it raises. *)
Definition ble_call (op : ble_op) : M unit :=
  fun w =>
    match faults w with
    | Some e :: f => (Raise e, add_event (Ble op (Some e)) (set_faults f w))
    | None :: f => (Ok tt, add_event (Ble op None) (set_faults f w))
    | [] => (Ok tt, add_event (Ble op None) w)
    end.

Definition lower_ascii (a : ascii) : ascii :=
  let n := N_of_ascii a in
  if ((65 <=? n) && (n <=? 90))%N then ascii_of_N (n + 32) else a.

Fixpoint lower_string (s : string) : string :=
  match s with
  | EmptyString => EmptyString
  | String a s' => String (lower_ascii a) (lower_string s')
  end.

(** [BleakScanner.find_device_by_name]: the first device seen with that
    name, or [None]. *)
Definition scan_by_name (n : option string) (use_bdaddr : option bool)
  : M (option BLEDevice) :=
  ble_call (find_device_by_name n use_bdaddr);;
  gets (fun w => snd <$> list_find (fun d => Some (name d) = n) (air w)).

(** [BleakScanner.find_device_by_address]: addresses are compared without
    regard to case. *)
Definition scan_by_address (a : string) (use_bdaddr : bool)
  : M (option BLEDevice) :=
  ble_call (find_device_by_address a use_bdaddr);;
  gets (fun w => snd <$> list_find
                   (fun d => lower_string (address d) = lower_string a) (air w)).

(** [async with BleakClient(device) as client: body] *)
Definition with_BleakClient {A} (device : BLEDevice) (body : M A) : M A :=
  ble_call (connect device);;
  try_finally body (ble_call disconnect).

(** ** [argparse]

    The part of [ArgumentParser] the two scripts use: optional arguments
    that store one value or set a flag, [-h]/[--help], positional arguments
    taking one value each, required arguments and mutually exclusive groups.
    Options are recognised as [parse_args] does (CPython 3.10): by their
    exact spelling, as [--option=value], by an unambiguous prefix of a long
    option, and as clusters of one-letter flags; [--] ends the options.
    Every error of the parser is [SystemExit(2)], and [--help] is
    [SystemExit(0)]. *)

Module argparse.

Local Open Scope string_scope.

Inductive action_kind := store | store_true | help.

(** One [add_argument]; a positional argument has no option strings. *)
Record Action := {
  option_strings : list string;
  dest : string;
  kind : action_kind;
  required : bool
}.

(** [groups]: the mutually exclusive groups, each with its [required]
    flag and the [dest]s of its members. *)
Record ArgumentParser := {
  actions : list Action;
  groups : list (bool * list string)
}.

Abbreviation Namespace := (gmap string value).

Definition help_action : Action :=
  {| option_strings := ["-h"; "--help"]; dest := "help"; kind := help;
     required := false |}.

Definition is_positional (a : Action) : bool :=
  bool_decide (option_strings a = []).

(** The number of values an optional argument takes. *)
Definition nargs (a : Action) : nat :=
  match kind a with
  | store => 1
  | _ => 0
  end.

Definition option_string_actions (p : ArgumentParser)
  : list (string * Action) :=
  flat_map (fun a => map (fun o => (o, a)) (option_strings a)) (actions p).

Fixpoint assoc (o : string) (l : list (string * Action)) : option Action :=
  match l with
  | [] => None
  | (o', a) :: l' => if String.eqb o' o then Some a else assoc o l'
  end.

Definition lookup_option (p : ArgumentParser) (o : string) : option Action :=
  assoc o (option_string_actions p).

(** [arg.split('=', 1)] when [arg] has an [=]. *)
Fixpoint split_eq (arg : string) : option (string * string) :=
  match arg with
  | EmptyString => None
  | String c r =>
      if Ascii.eqb c "="%char then Some (EmptyString, r)
      else match split_eq r with
           | Some (a, b) => Some (String c a, b)
           | None => None
           end
  end.

Definition is_digit (c : ascii) : bool :=
  ((48 <=? N_of_ascii c) && (N_of_ascii c <=? 57))%N.

Fixpoint all_digits (s : string) : bool :=
  match s with
  | EmptyString => true
  | String c r => is_digit c && all_digits r
  end.

Fixpoint skip_digits (s : string) : string :=
  match s with
  | String c r => if is_digit c then skip_digits r else s
  | EmptyString => s
  end.

(** [^-\d+$|^-\d*\.\d+$] *)
Definition negative_number (arg : string) : bool :=
  match arg with
  | String "-"%char r =>
      (negb (String.eqb r "") && all_digits r)
      || match skip_digits r with
         | String "."%char f => negb (String.eqb f "") && all_digits f
         | _ => false
         end
  | _ => false
  end.

Fixpoint has_space (s : string) : bool :=
  match s with
  | EmptyString => false
  | String c r => Ascii.eqb c " "%char || has_space r
  end.

(** The options a not exactly spelled [arg] can stand for. *)
Definition get_option_tuples (p : ArgumentParser) (arg : string)
  : list (Action * string * option string) :=
  if String.prefix "--" arg then
    let '(pre, explicit) :=
      match split_eq arg with
      | Some (o, e) => (o, Some e)
      | None => (arg, None)
      end in
    (fun oa => (snd oa, fst oa, explicit))
      <$> filter (fun oa => String.prefix pre (fst oa) = true)
            (option_string_actions p)
  else
    let short := String.substring 0 2 arg in
    let rest := String.substring 2 (String.length arg - 2) arg in
    omap (fun oa =>
            if String.eqb (fst oa) short then Some (snd oa, fst oa, Some rest)
            else if String.prefix arg (fst oa) then Some (snd oa, fst oa, None)
            else None)
      (option_string_actions p).

(** How one command-line argument is read: a value ([A]), an option of
    the parser, possibly with a value attached ([O]), something that looks
    like an option and is none ([O_unknown]), or the [--] separator. *)
Inductive arg_class :=
  | arg_A
  | arg_O (a : Action) (option_string : string) (explicit_arg : option string)
  | arg_O_unknown
  | arg_dashdash.

(** [parser.error(message)] and [parser.exit()] after [--help]. *)
Definition error : exn := SystemExit 2.
Definition help_exit : exn := SystemExit 0.

Definition parse_optional (p : ArgumentParser) (arg : string)
  : exn + arg_class :=
  match arg with
  | EmptyString => inr arg_A
  | String c _ =>
      if negb (Ascii.eqb c "-"%char) then inr arg_A
      else match lookup_option p arg with
      | Some a => inr (arg_O a arg None)
      | None =>
      if (String.length arg =? 1)%nat then inr arg_A
      else match
        (match split_eq arg with
         | Some (o, e) => (fun a => (a, o, e)) <$> lookup_option p o
         | None => None
         end) with
      | Some (a, o, e) => inr (arg_O a o (Some e))
      | None =>
      match get_option_tuples p arg with
      | _ :: _ :: _ => inl error
      | [(a, o, e)] => inr (arg_O a o e)
      | [] =>
          if negative_number arg then inr arg_A
          else if has_space arg then inr arg_A
          else inr arg_O_unknown
      end end end
  end.

(** The classes of a whole command line; after [--] everything is a
    value. *)
Fixpoint classify (p : ArgumentParser) (argv : list string)
  : exn + list (string * arg_class) :=
  match argv with
  | [] => inr []
  | arg :: rest =>
      if String.eqb arg "--" then
        inr ((arg, arg_dashdash) :: map (fun a => (a, arg_A)) rest)
      else
        match parse_optional p arg, classify p rest with
        | inl e, _ => inl e
        | _, inl e => inl e
        | inr c, inr cs => inr ((arg, c) :: cs)
        end
  end.

(** The state of a parse: the namespace, the [dest]s given so far, the
    positional arguments still to fill, the arguments left over. *)
Record state := {
  ns : Namespace;
  seen : list string;
  todo : list Action;
  extras : list string
}.

Definition default_value (a : Action) : value :=
  match kind a with
  | store_true => VBool false
  | _ => VNone
  end.

(** The namespace before parsing: every [dest] at its default; [help] has
    no attribute. *)
Definition initial (p : ArgumentParser) : state :=
  {| ns := foldr (fun a m => match kind a with
                             | help => m
                             | _ => <[dest a := default_value a]> m
                             end) ∅ (actions p);
     seen := [];
     todo := filter (fun a => is_positional a = true) (actions p);
     extras := [] |}.

(** The [dest]s that may not be given together with [d]. *)
Definition conflicts (p : ArgumentParser) (d : string) : list string :=
  flat_map (fun g => if bool_decide (d ∈ snd g)
                     then filter (fun d' => d' ≠ d) (snd g) else [])
    (groups p).

(** [take_action]: the conflict check, then the action itself. *)
Definition take_action (p : ArgumentParser) (a : Action)
    (v : option string) (st : state) : exn + state :=
  if bool_decide (Exists (fun d' => d' ∈ seen st) (conflicts p (dest a)))
  then inl error
  else
    match kind a, v with
    | help, _ => inl help_exit
    | store_true, _ =>
        inr {| ns := <[dest a := VBool true]> (ns st);
               seen := dest a :: seen st;
               todo := todo st; extras := extras st |}
    | store, Some s =>
        inr {| ns := <[dest a := VStr s]> (ns st);
               seen := dest a :: seen st;
               todo := todo st; extras := extras st |}
    | store, None => inl error
    end.

Fixpoint take_actions (p : ArgumentParser)
    (l : list (Action * option string)) (st : state) : exn + state :=
  match l with
  | [] => inr st
  | (a, v) :: l' =>
      match take_action p a v st with
      | inl e => inl e
      | inr st' => take_actions p l' st'
      end
  end.

(** An option with a value attached: the value of an option that takes
    one, or further one-letter flags after a one-letter flag.  The result
    lists the actions to take and, last, an option still waiting for its
    value. *)
Fixpoint explicit (p : ArgumentParser) (a : Action) (short : bool)
    (e : string) : exn + (list (Action * option string) * option Action) :=
  match nargs a, short, e with
  | O, true, String c e' =>
      match lookup_option p (String "-"%char (String c "")) with
      | None => inl error
      | Some a' =>
          match e' with
          | EmptyString =>
              inr ((a, None) ::
                   (if (nargs a' =? 0)%nat then [(a', None)] else []),
                   if (nargs a' =? 0)%nat then None else Some a')
          | _ =>
              match explicit p a' true e' with
              | inl err => inl err
              | inr (l, pending) => inr ((a, None) :: l, pending)
              end
          end
      end
  | O, _, _ => inl error
  | _, _, _ => inr ([(a, Some e)], None)
  end.

Definition is_short (option_string : string) : bool :=
  match option_string with
  | String _ (String c _) => negb (Ascii.eqb c "-"%char)
  | _ => false
  end.

(** The main loop of [parse_known_args]. *)
Fixpoint consume (p : ArgumentParser) (args : list (string * arg_class))
    (st : state) : exn + state :=
  match args with
  | [] => inr st
  | (arg, arg_A) :: rest =>
      match todo st with
      | a :: t =>
          consume p rest
            {| ns := <[dest a := VStr arg]> (ns st);
               seen := dest a :: seen st; todo := t; extras := extras st |}
      | [] =>
          consume p rest
            {| ns := ns st; seen := seen st; todo := [];
               extras := (extras st ++ [arg])%list |}
      end
  | (_, arg_dashdash) :: rest => consume p rest st
  | (arg, arg_O_unknown) :: rest =>
      consume p rest
        {| ns := ns st; seen := seen st; todo := todo st;
           extras := (extras st ++ [arg])%list |}
  | (_, arg_O a o e) :: rest =>
      match
        (match e with
         | Some e => explicit p a (is_short o) e
         | None => inr (if (nargs a =? 0)%nat then ([(a, None)], None)
                        else ([], Some a))
         end) with
      | inl err => inl err
      | inr (l, None) =>
          match take_actions p l st with
          | inl err => inl err
          | inr st' => consume p rest st'
          end
      | inr (l, Some pending) =>
          match rest with
          | (v, arg_A) :: rest' =>
              match take_actions p (l ++ [(pending, Some v)])%list st with
              | inl err => inl err
              | inr st' => consume p rest' st'
              end
          | _ => inl error
          end
      end
  end.

(** The checks after the loop: required arguments, required groups, and
    nothing left over. *)
Definition complete (p : ArgumentParser) (st : state) : bool :=
  forallb (fun a => negb (required a || is_positional a)
                    || bool_decide (dest a ∈ seen st)) (actions p)
  && forallb (fun g => negb (fst g)
                       || bool_decide (Exists (fun d => d ∈ seen st) (snd g)))
       (groups p)
  && bool_decide (extras st = []).

(** [parser.parse_args(argv)]: the namespace, or [SystemExit]. *)
Definition parse_args (p : ArgumentParser) (argv : list string)
  : exn + Namespace :=
  match classify p argv with
  | inl e => inl e
  | inr args =>
      match consume p args (initial p) with
      | inl e => inl e
      | inr st => if complete p st then inr (ns st) else inl error
      end
  end.

(** The options found on a command line are options of the parser. *)
Definition of_parser (p : ArgumentParser) (c : arg_class) : Prop :=
  match c with
  | arg_O a _ _ => In a (actions p)
  | _ => True
  end.

End argparse.

(** The exit status of the interpreter once the script body has run to its
    end; [None] while it has not. *)
Definition exit_status {A} (r : Res A) : option Z :=
  match r with
  | Ok _ => Some 0
  | Raise (SystemExit status) => Some status
  | Raise _ => Some 1
  | Blocked | Running => None
  end.

Definition of_sum {A} (r : exn + A) : M A :=
  match r with
  | inl e => raise e
  | inr a => ret a
  end.

(** [queue = Queue()] *)
Definition new_Queue : M unit := fun w => (Ok tt, set_queue [] w).

(** Arguments of a call, as Python passes them. *)
Inductive pyvalue :=
  | PValue (v : value)
  | PNamespace (args : argparse.Namespace)
  | PQueue.

Definition opt_str (v : pyvalue) : option string :=
  match v with
  | PValue (VStr s) => Some s
  | _ => None
  end.

Definition truth (v : pyvalue) : bool :=
  match v with
  | PValue VNone | PValue (VStr EmptyString) | PValue (VBool false) => false
  | _ => true
  end.

(** [args.attribute] *)
Definition getattr (args : argparse.Namespace) (attribute : string) : value :=
  default VNone (args !! attribute).

(** ** [examples/devel_notifications.py] *)

Module devel_notifications.

Import argparse.
Local Open Scope string_scope.

(** The handler made by [notification_handler_with_queue(queue)]. *)
Definition handler (data : bytes) : M unit :=
  try_except
    (decoded_data ← or_raise UnicodeDecodeError (decode_utf8 data);
     log (info_Received_notification decoded_data);;
     queue_put decoded_data)
    (fun e => if is_Exception e
              then Some (log (error_Error_handling_notification e))
              else None).

(** One turn of the [while True] of [main]. *)
Definition command_loop (led_characteristic : string) : M unit :=
  empty ← queue_empty;
  (if negb empty then
     command ← queue_get;
     log (info_Sending_command command);;
     data ← or_raise UnicodeEncodeError (encode_utf8 command);
     ble_call (write_gatt_char led_characteristic data)
   else ret tt);;
  sleep 1.

(** [main(name, address, characteristic, led_characteristic, use_bdaddr,
    queue)], its loop looked at for [n] turns.  The result of the scan is
    [None] after the early [return]. *)
Definition main (n : nat) (name address : option string)
    (characteristic led_characteristic : string) (use_bdaddr : bool)
  : M unit :=
  log info_Starting_scan;;
  found ← match address with
          | Some (String c a) =>
              device ← scan_by_address (String c a) use_bdaddr;
              match device with
              | None =>
                  log (error_Could_not_find_address (String c a));; ret None
              | Some d => ret (Some d)
              end
          | _ =>
              device ← scan_by_name name (Some use_bdaddr);
              match device with
              | None => log (error_Could_not_find_name name);; ret None
              | Some d => ret (Some d)
              end
          end;
  match found with
  | None => ret tt
  | Some device =>
      log info_Connecting;;
      with_BleakClient device
        (log info_Connected;;
         ble_call (start_notify characteristic);;
         try_finally
           (try_except
              (while_True n (command_loop led_characteristic))
              (fun e => match e with
                        | CancelledError =>
                            Some (log info_Notification_listening_cancelled)
                        | _ => None
                        end))
           (ble_call (stop_notify characteristic)))
  end.

(** The names [main] binds its arguments to. *)
Definition parameters : list string :=
  ["name"; "address"; "characteristic"; "led_characteristic";
   "use_bdaddr"; "queue"].

(** A call of [main] with the arguments [args]: they are bound to the
    parameters before anything of the body runs, and a call with too few
    or too many raises [TypeError]. *)
Definition call_main (n : nat) (args : list pyvalue) : M unit :=
  if bool_decide (length args = length parameters) then
    match args with
    | [name; address; characteristic; led_characteristic; use_bdaddr; _] =>
        main n (opt_str name) (opt_str address)
          (default "" (opt_str characteristic))
          (default "" (opt_str led_characteristic)) (truth use_bdaddr)
    | _ => raise TypeError
    end
  else raise TypeError.

(** The parser built under [if __name__ == "__main__"]. *)
Definition parser : ArgumentParser :=
  {| actions :=
       [ help_action;
         {| option_strings := ["--name"]; dest := "name"; kind := store;
            required := false |};
         {| option_strings := ["--address"]; dest := "address";
            kind := store; required := false |};
         {| option_strings := ["--macos-use-bdaddr"];
            dest := "macos_use_bdaddr"; kind := store_true;
            required := false |};
         {| option_strings := []; dest := "characteristic"; kind := store;
            required := true |};
         {| option_strings := []; dest := "led_characteristic";
            kind := store; required := true |};
         {| option_strings := ["-d"; "--debug"]; dest := "debug";
            kind := store_true; required := false |} ];
     groups := [(true, ["name"; "address"])] |}.

(** The script run from the command line: [asyncio.run(main(args,
    queue))]. *)
Definition script (n : nat) (argv : list string) : M unit :=
  args ← of_sum (parse_args parser argv);
  new_Queue;;
  call_main n [PNamespace args; PQueue].

End devel_notifications.

(** ** [examples/enable_response.py] *)

Module enable_response.

Import argparse.
Local Open Scope string_scope.

Record SensorReading := {
  gx : spec_float; gy : spec_float; gz : spec_float;
  ax : spec_float; ay : spec_float; az : spec_float
}.

(** [command = "BLINK_1S" if gx > 0.50 else "BLINK_5S"] *)
Definition command_for (r : SensorReading) : str :=
  if Float.gt (gx r) Float.threshold then lit "BLINK_1S" else lit "BLINK_5S".

Section Unicode.

Variable Py_UNICODE_ISSPACE : Z -> bool.
Variable Py_UNICODE_TODECIMAL : Z -> option Z.

Definition float : str -> option spec_float :=
  Float.float Py_UNICODE_ISSPACE Py_UNICODE_TODECIMAL.

(** The first [n] values of [map(float, tokens)], as unpacking draws
    them: one [float] call per value, in order, then one more to see
    that nothing is left.  [got] counts the values drawn so far. *)
Fixpoint draw (n got : nat) (tokens : list str)
  : exn + list spec_float :=
  match n, tokens with
  | O, [] => inr []
  | O, t :: _ =>
      match float t with
      | None => inl (ValueError (could_not_convert t))
      | Some _ => inl (ValueError too_many_values)
      end
  | S _, [] => inl (ValueError (not_enough_values got))
  | S n', t :: ts =>
      match float t with
      | None => inl (ValueError (could_not_convert t))
      | Some x =>
          match draw n' (S got) ts with
          | inl e => inl e
          | inr xs => inr (x :: xs)
          end
      end
  end.

(** [gx, gy, gz, ax, ay, az = map(float, message.split(","))] *)
Definition parse (message : str) : exn + SensorReading :=
  match draw 6 0 (Str.split 44 message) with
  | inl e => inl e
  | inr [x1; x2; x3; x4; x5; x6] =>
      inr {| gx := x1; gy := x2; gz := x3; ax := x4; ay := x5; az := x6 |}
  | inr _ => inl TypeError
  end.

(** The body of the [try] of [process_queue_and_write]. *)
Definition handle_message (led_characteristic : string) : M unit :=
  message ← queue_get;
  if contains (lit "BLINK") message then
    print (Received_command_from_queue message);;
    data ← or_raise UnicodeEncodeError (encode_utf8 message);
    ble_call (write_gatt_char led_characteristic data);;
    print (Sent_command message)
  else
    r ← of_sum (parse message);
    print (Parsed_IMU_Data (gx r) (gy r) (gz r) (ax r) (ay r) (az r));;
    let command := command_for r in
    data ← or_raise UnicodeEncodeError
             (encode_utf8 (strip isspace_ascii command));
    ble_call (write_gatt_char led_characteristic data);;
    print (Sent_command command).

(** One turn of the [while True]: [try], the two [except] clauses, and
    [finally]. *)
Definition turn (led_characteristic : string) : M unit :=
  try_finally
    (try_except
       (handle_message led_characteristic)
       (fun e =>
          if is_ValueError e then Some (print (Error_processing_queue e))
          else if is_Exception e then Some (print (Unexpected_error e))
          else None))
    (sleep 1).

(** [process_queue_and_write(client, queue, led_characteristic)], looked
    at for [n] turns. *)
Definition process_queue_and_write (n : nat) (led_characteristic : string)
  : M unit :=
  while_True n (turn led_characteristic).

(** [main(queue, device_name, led_characteristic)] *)
Definition main (n : nat) (device_name led_characteristic : string)
  : M unit :=
  print Scanning_for_device;;
  device ← scan_by_name (Some device_name) None;
  match device with
  | None => print (Device_not_found device_name)
  | Some d =>
      with_BleakClient d
        (print Connected_to_Nano;;
         process_queue_and_write n led_characteristic)
  end.

(** The parser built under [if __name__ == "__main__"]. *)
Definition parser : ArgumentParser :=
  {| actions :=
       [ help_action;
         {| option_strings := ["--name"]; dest := "name"; kind := store;
            required := true |};
         {| option_strings := ["--address"]; dest := "address";
            kind := store; required := false |};
         {| option_strings := []; dest := "characteristic";
            kind := store; required := true |};
         {| option_strings := []; dest := "led_characteristic";
            kind := store; required := true |};
         {| option_strings := ["--macos-use-bdaddr"];
            dest := "macos_use_bdaddr"; kind := store_true;
            required := false |} ];
     groups := [] |}.

(** [run_notifications], the target of the second process, which runs
    on its own. *)
Definition run_notifications (n : nat)
    (name address characteristic led_characteristic use_bdaddr : value)
  : M unit :=
  devel_notifications.call_main n
    [PValue name; PValue address; PValue characteristic;
     PValue led_characteristic; PValue use_bdaddr; PQueue].

(** The script run from the command line, in the first process. *)
Definition script (n : nat) (argv : list string) : M unit :=
  args ← of_sum (parse_args parser argv);
  new_Queue;;
  emit (Process_start "run_notifications"
          [getattr args "name"; getattr args "address";
           getattr args "characteristic";
           getattr args "led_characteristic";
           getattr args "macos_use_bdaddr"]);;
  main n (default "" (opt_str (PValue (getattr args "name"))))
    (default "" (opt_str (PValue (getattr args "led_characteristic"))));;
  emit Process_join.

End Unicode.

End enable_response.

(** * The vocabulary of the properties *)

(** ** Reading a trace *)

(** The world after more effects. *)
Definition emits (evs : list event) (w : World) : World :=
  {| queue := queue w; air := air w; faults := faults w;
     trace := trace w ++ evs |}.

(** The calls into the BLE library found in a trace, in order, whatever
    their outcome. *)
Definition ble_ops (evs : list event) : list ble_op :=
  omap (fun ev => match ev with
                  | Ble op _ => Some op
                  | _ => None
                  end) evs.

(** The calls that went through. *)
Definition ble_done (evs : list event) : list ble_op :=
  omap (fun ev => match ev with
                  | Ble op None => Some op
                  | _ => None
                  end) evs.

(** The time slept between each write to a characteristic and the next
    one.  [since] is the time slept since the last write, [None] before the
    first write. *)
Fixpoint gaps_from (since : option Z) (evs : list event) : list Z :=
  match evs with
  | [] => []
  | Sleep s :: r => gaps_from (Z.add s <$> since) r
  | Ble (write_gatt_char _ _) _ :: r =>
      match since with
      | Some g => g :: gaps_from (Some 0) r
      | None => gaps_from (Some 0) r
      end
  | _ :: r => gaps_from since r
  end.

Definition gaps (evs : list event) : list Z := gaps_from None evs.

(** The time slept since the last write, after the effects [evs]. *)
Fixpoint since_after (since : option Z) (evs : list event) : option Z :=
  match evs with
  | [] => since
  | Sleep s :: r => since_after (Z.add s <$> since) r
  | Ble (write_gatt_char _ _) _ :: r => since_after (Some 0) r
  | _ :: r => since_after since r
  end.

(** At least one second has been slept since the last write, if any. *)
Definition rested (since : option Z) : Prop :=
  match since with
  | Some g => 1 <= g
  | None => True
  end.

(** ** One turn of [process_queue_and_write], as a function of the message *)

Section TurnEffects.

Import enable_response.

Variable Py_UNICODE_ISSPACE : Z -> bool.
Variable Py_UNICODE_TODECIMAL : Z -> option Z.

(** What a message leads to before anything is written: the lines
    printed, and either the exception raised or the command with the
    bytes to write. *)
Definition prepare (message : str) : list event * (exn + str * bytes) :=
  if contains (lit "BLINK") message then
    ([Print (Received_command_from_queue message)],
     match encode_utf8 message with
     | Some data => inr (message, data)
     | None => inl UnicodeEncodeError
     end)
  else
    match parse Py_UNICODE_ISSPACE Py_UNICODE_TODECIMAL message with
    | inl e => ([], inl e)
    | inr r =>
        ([Print (Parsed_IMU_Data (gx r) (gy r) (gz r) (ax r) (ay r) (az r))],
         match encode_utf8 (strip isspace_ascii (command_for r)) with
         | Some data => inr (command_for r, data)
         | None => inl UnicodeEncodeError
         end)
    end.

(** What the [except] clauses make of an exception. *)
Definition caught (e : exn) : list event * Res unit :=
  if is_ValueError e then ([Print (Error_processing_queue e)], Ok tt)
  else if is_Exception e then ([Print (Unexpected_error e)], Ok tt)
  else ([], Raise e).

(** The effects and the outcome of a turn that takes [message] from the
    queue, when the write, if one is made, has the outcome [fault]. *)
Definition turn_effects (led : string) (message : str) (fault : option exn)
  : list event * Res unit :=
  match prepare message with
  | (pre, inl e) => (pre ++ (caught e).1 ++ [Sleep 1], (caught e).2)
  | (pre, inr (command, data)) =>
      match fault with
      | Some e =>
          (pre ++ Ble (write_gatt_char led data) (Some e)
               :: (caught e).1 ++ [Sleep 1], (caught e).2)
      | None =>
          (pre ++ [Ble (write_gatt_char led data) None;
                   Print (Sent_command command); Sleep 1], Ok tt)
      end
  end.

(** Whether the turn reaches its write. *)
Definition writes (message : str) : bool :=
  match prepare message with
  | (_, inr _) => true
  | _ => false
  end.

(** The write a message calls for: its own bytes when it carries the
    keyword, the command chosen from the reading when it parses, none
    otherwise. *)
Definition wanted (led : string) (message : str) : option ble_op :=
  match prepare message with
  | (_, inr (_, data)) => Some (write_gatt_char led data)
  | _ => None
  end.

(** The payload is malformed: the number of fields is not six, or one of
    the fields is no number. *)
Definition malformed (message : str) : Prop :=
  length (Str.split 44 message) <> 6%nat
  \/ Exists (fun t => float Py_UNICODE_ISSPACE Py_UNICODE_TODECIMAL t = None)
       (Str.split 44 message).

End TurnEffects.

(** ** Running the scripts on concrete inputs *)

(** The Unicode database restricted to ASCII: no further white space, no
    further digit.  On ASCII payloads every database gives the same
    result. *)
Definition ascii_ISSPACE : Z -> bool := fun _ => false.
Definition ascii_TODECIMAL : Z -> option Z := fun _ => None.

(** A world with the given items in the queue, no device in range, no
    failure of the BLE library ahead and nothing observed yet. *)
Definition world_with (items : list str) : World :=
  {| queue := items; air := []; faults := []; trace := [] |}.

(** The BLE library calls the handler once for each notification. *)
Definition deliver (notifications : list bytes) : M unit :=
  foldr (fun data k => devel_notifications.handler data;; k) (ret tt)
    notifications.

(** ** What a parse keeps true *)

(** The attribute [d] of the namespace under construction is a string when
    the argument was given, and [None] when it was not. *)
Definition given (st : argparse.state) (d : string) : Prop :=
  (argparse.ns st !! d = Some VNone /\ d ∉ argparse.seen st)
  \/ (exists s, argparse.ns st !! d = Some (VStr s) /\ d ∈ argparse.seen st).

(** With the parser of [devel_notifications.py]: [--name] and [--address]
    have not both been given. *)
Definition devel_inv (st : argparse.state) : Prop :=
  Forall (fun a => argparse.dest a <> "name"%string
                   /\ argparse.dest a <> "address"%string) (argparse.todo st)
  /\ given st "name" /\ given st "address"
  /\ ~ ("name"%string ∈ argparse.seen st /\ "address"%string ∈ argparse.seen st).

(** With the parser of [enable_response.py]: once [--name] has been given,
    the attribute is a string. *)
Definition enable_inv (st : argparse.state) : Prop :=
  Forall (fun a => argparse.dest a <> "name"%string) (argparse.todo st)
  /\ ("name"%string ∈ argparse.seen st ->
      exists s, argparse.ns st !! "name"%string = Some (VStr s)).

(** The attributes [name] and [address] after a command line, or the exit
    status of the parser. *)
Definition selector (p : argparse.ArgumentParser) (argv : list string)
  : Z + option value * option value :=
  match argparse.parse_args p argv with
  | inl (SystemExit status) => inl status
  | inl _ => inl 1
  | inr args => inr (args !! "name"%string, args !! "address"%string)
  end.

(** ** Further vocabulary *)

(** The seconds slept in a trace. *)
Definition slept (evs : list event) : Z :=
  foldr (fun ev acc => match ev with
                       | Sleep s => s + acc
                       | _ => acc
                       end) 0 evs.

(** None of the coming failures of the BLE library is a cancellation or an
    exit of the interpreter: each one is an [Exception]. *)
Definition only_Exceptions (f : list (option exn)) : Prop :=
  Forall (fun o => match o with
                   | Some e => is_Exception e = true
                   | None => True
                   end) f.


(** What the handler logs for a notification. *)
Definition handler_record (data : bytes) : record :=
  match decode_utf8 data with
  | Some s => info_Received_notification s
  | None => error_Error_handling_notification UnicodeDecodeError
  end.

(** ** What a piece of a script asks of the BLE library *)




(** ** The namespace under construction *)



(** * Lemmas *)

(** ** The world *)

Lemma emits_emits a b w : emits b (emits a w) = emits (a ++ b) w.
Proof. unfold emits; simpl. by rewrite app_assoc. Qed.

Lemma add_event_emits e w : add_event e w = emits [e] w.
Proof. reflexivity. Qed.

Lemma set_faults_emits f evs w :
  set_faults f (emits evs w) = emits evs (set_faults f w).
Proof. reflexivity. Qed.

Lemma ble_ops_app a b : ble_ops (a ++ b) = ble_ops a ++ ble_ops b.
Proof. apply omap_app. Qed.

(** The calls that went through are among the calls made, in the same
    order. *)
Lemma ble_done_sublist evs : sublist (ble_done evs) (ble_ops evs).
Proof.
  induction evs as [|ev evs IH]; [constructor|].
  destruct ev as [| |op [e|]| | |]; simpl; try exact IH.
  - by apply sublist_cons.
  - by apply sublist_skip.
Qed.


(** ** Lists *)

(** [omap] keeps the order of what it keeps. *)
Lemma omap_in_order {A B} (f : A -> option B) (l : list A) i j a b x y :
  (i < j)%nat -> l !! i = Some a -> l !! j = Some b ->
  f a = Some x -> f b = Some y ->
  exists i' j', (i' < j')%nat
                /\ omap f l !! i' = Some x /\ omap f l !! j' = Some y.
Proof.
  intros Hij Hi Hj Hx Hy.
  assert (drop (S i) l !! (j - S i)%nat = Some b) as Hb.
  { rewrite lookup_drop. by replace (S i + (j - S i))%nat with j by lia. }
  assert (y ∈ omap f (drop (S i) l)) as Hin.
  { apply list_elem_of_omap. exists b. split; [|done].
    by eapply list_elem_of_lookup_2. }
  apply list_elem_of_lookup in Hin as [t Ht].
  rewrite <- (take_drop_middle l i a Hi), omap_app. simpl. rewrite Hx.
  exists (length (omap f (take i l))), (length (omap f (take i l)) + S t)%nat.
  split; [lia|]. split.
  - by rewrite list_lookup_middle.
  - rewrite lookup_app_r by lia.
    by replace (length (omap f (take i l)) + S t
                - length (omap f (take i l)))%nat with (S t) by lia.
Qed.

(** ** Strings *)

Lemma startswith_cons c p s :
  startswith (c :: p) s = true -> exists s', s = c :: s' /\ startswith p s' = true.
Proof.
  destruct s as [|b s]; simpl; [discriminate|].
  intros [Hc Hp]%andb_prop. apply Z.eqb_eq in Hc. subst. eauto.
Qed.

Lemma startswith_take p s :
  startswith p s = true -> take (length p) s = p.
Proof.
  revert s. induction p as [|c p IH]; intros s H; [done|].
  apply startswith_cons in H as (s' & -> & H). simpl. f_equal. by apply IH.
Qed.

(** A string that contains [c :: p] contains the character [c]. *)
Lemma contains_In c p s : contains (c :: p) s = true -> In c s.
Proof.
  induction s as [|b s IH]; simpl.
  - discriminate.
  - intros [H|H]%orb_prop.
    + apply andb_prop in H as [H _]. apply Z.eqb_eq in H. by left.
    + right. by apply IH.
Qed.

(** Every character that is not the separator ends up in a piece. *)
Lemma split_In sep c s :
  In c s -> c <> sep -> exists t, In t (Str.split sep s) /\ In c t.
Proof.
  intros Hin Hne. induction s as [|b s IH]; [done|]. simpl.
  destruct Hin as [->|Hin].
  - rewrite (proj2 (Z.eqb_neq c sep) Hne).
    destruct (Str.split sep s) as [|t ts]; eexists; split;
      try (left; reflexivity); by left.
  - destruct (IH Hin) as (t & Ht & Hc).
    destruct (b =? sep); [exists t; split; [by right|done]|].
    destruct (Str.split sep s) as [|t' ts]; [done|].
    destruct Ht as [->|Ht].
    + exists (b :: t). split; [by left|by right].
    + exists t. split; [by right|done].
Qed.

Lemma lstrip_In sp c s : In c s -> sp c = false -> In c (lstrip sp s).
Proof.
  intros Hin Hsp. induction s as [|b s IH]; [done|]. simpl.
  destruct (sp b) eqn:Hb; [|done].
  destruct Hin as [->|Hin]; [congruence|by apply IH].
Qed.

Lemma strip_In sp c s : In c s -> sp c = false -> In c (strip sp s).
Proof.
  intros Hin Hsp. unfold strip, rstrip. apply in_rev. rewrite rev_involutive.
  apply lstrip_In; [|done]. apply in_rev. rewrite rev_involutive.
  by apply lstrip_In.
Qed.

(** ** Floats: what a numeric token is made of *)

Module FloatFacts.

Import Float.

Lemma span_spec p s a b :
  span p s = (a, b) -> s = a ++ b /\ Forall (fun c => p c = true) a.
Proof.
  revert a b. induction s as [|c s IH]; simpl; intros a b H.
  - by inversion H.
  - destruct (p c) eqn:Hc.
    + destruct (span p s) as [a' b'] eqn:Hs. inversion H; subst.
      destruct (IH _ _ eq_refl) as [-> Ha]. split; [done|].
      by constructor.
    + by inversion H.
Qed.

Lemma digit_allowed c : Py_ISDIGIT c = true -> allowed c = true.
Proof. unfold allowed. by intros ->. Qed.

Lemma digits_allowed ds :
  Forall (fun c => Py_ISDIGIT c = true) ds ->
  Forall (fun c => allowed c = true) ds.
Proof.
  intros H. eapply Forall_impl; [exact H|]. intros c. apply digit_allowed.
Qed.

Lemma sign_spec s neg r :
  sign s = (neg, r) -> s = r \/ exists c, s = c :: r /\ allowed c = true.
Proof.
  unfold sign. intros H.
  destruct s as [|c s]; [inversion H; by left|].
  destruct (decide (c = 45)) as [->|]; [inversion H; right; by eexists|].
  destruct (decide (c = 43)) as [->|]; [inversion H; right; by eexists|].
  left. destruct c as [|p|p]; try (by inversion H).
  do 7 (destruct p as [p|p|]; try (by inversion H); try done).
Qed.

Lemma exponent_spec s e :
  exponent s = (e, []) -> Forall (fun c => allowed c = true) s.
Proof.
  unfold exponent. destruct s as [|c r]; [constructor|].
  destruct ((c =? 101) || (c =? 69)) eqn:Hc; [|by inversion 1].
  destruct (sign r) as [neg r1] eqn:Hs.
  destruct (span Py_ISDIGIT r1) as [ds r2] eqn:Hd.
  destruct ds as [|d ds]; [by inversion 1|].
  intros H; inversion H; subst.
  apply span_spec in Hd as [-> Hd]. rewrite app_nil_r in Hs.
  constructor.
  - apply orb_prop in Hc as [->%Z.eqb_eq| ->%Z.eqb_eq]; reflexivity.
  - apply sign_spec in Hs as [->|(c' & -> & Hc')].
    + by apply digits_allowed.
    + constructor; [done|by apply digits_allowed].
Qed.

Lemma decimal_spec neg s x :
  decimal neg s = Some (x, []) -> Forall (fun c => allowed c = true) s.
Proof.
  unfold decimal.
  destruct (span Py_ISDIGIT s) as [ip r1] eqn:Hi.
  apply span_spec in Hi as [-> Hi].
  set (fr := match r1 with 46 :: r => span Py_ISDIGIT r | _ => ([], r1) end).
  destruct fr as [fp r2] eqn:Hf.
  destruct (ip ++ fp) as [|d ds] eqn:Hds; [discriminate|].
  destruct (exponent r2) as [e r3] eqn:He.
  intros H; inversion H; subst r3.
  apply exponent_spec in He.
  apply Forall_app. split; [by apply digits_allowed|].
  subst fr. destruct r1 as [|c r]; [inversion Hf; by subst|].
  destruct (decide (c = 46)) as [->|Hne].
  - apply span_spec in Hf as [-> Hf]. constructor; [done|].
    apply Forall_app. split; [by apply digits_allowed|done].
  - assert (([] : str, c :: r) = (fp, r2)) as Heq.
    { rewrite <- Hf. destruct c as [|p|p]; try done.
      do 7 (destruct p as [p|p|]; try done). }
    by inversion Heq; subst.
Qed.

Lemma lower_letters p s :
  startswith p (map lower s) = true ->
  Forall (fun c => bool_decide (c ∈ [43; 45; 46; 101; 105; 110; 102; 116; 121; 97]) = true) p ->
  Forall (fun c => allowed c = true) (take (length p) s).
Proof.
  revert s. induction p as [|c p IH]; intros s H Hp; [constructor|].
  destruct s as [|b s]; [done|]. simpl in H.
  apply andb_prop in H as [Hc H]. apply Z.eqb_eq in Hc. subst c.
  inversion Hp; subst. simpl. constructor; [|by apply IH].
  unfold allowed. apply orb_true_intro. by right.
Qed.

Lemma drop_nil_take {A} n (s : list A) : drop n s = [] -> take n s = s.
Proof. intros H. rewrite <- (take_drop n s) at 2. rewrite H. by rewrite app_nil_r. Qed.

Lemma inf_or_nan_spec neg s x :
  inf_or_nan neg s = Some (x, []) -> Forall (fun c => allowed c = true) s.
Proof.
  unfold inf_or_nan.
  destruct (startswith (lit "inf") (map lower s)) eqn:Hinf.
  - destruct (startswith (lit "inity") (drop 3 (map lower s))) eqn:Hity.
    + intros H. assert (drop 8 s = []) as Hd by (by inversion H).
      apply drop_nil_take in Hd. rewrite <- Hd.
      apply (lower_letters (lit "infinity")); [|by repeat constructor].
      apply startswith_take in Hinf, Hity. simpl in Hinf, Hity.
      rewrite <- (take_drop 3 (map lower s)), Hinf.
      destruct (drop 3 (map lower s)) as [|c1 [|c2 [|c3 [|c4 [|c5 r]]]]];
        try discriminate.
      by inversion Hity.
    + intros H. assert (drop 3 s = []) as Hd by (by inversion H).
      apply drop_nil_take in Hd. rewrite <- Hd.
      by apply (lower_letters (lit "inf")); [|repeat constructor].
  - destruct (startswith (lit "nan") (map lower s)) eqn:Hnan; [|done].
    intros H. assert (drop 3 s = []) as Hd by (by inversion H).
    apply drop_nil_take in Hd. rewrite <- Hd.
    by apply (lower_letters (lit "nan")); [|repeat constructor].
Qed.

Lemma strtod_allowed s x :
  strtod s = Some x -> Forall (fun c => allowed c = true) s.
Proof.
  unfold strtod. destruct (sign s) as [neg r] eqn:Hs.
  intros H.
  assert (Forall (fun c => allowed c = true) r) as Hr.
  { destruct (decimal neg r) as [[y [|c rest]]|] eqn:Hd; [| done |].
    - by eapply decimal_spec.
    - destruct (inf_or_nan neg r) as [[y [|c rest]]|] eqn:Hn; [|done|done].
      by eapply inf_or_nan_spec. }
  apply sign_spec in Hs as [->|(c & -> & Hc)]; [done|by constructor].
Qed.

Lemma underscores_In prev s u c :
  underscores prev s = Some u -> In c s -> c <> 95 -> In c u.
Proof.
  revert prev u. induction s as [|b s IH]; intros prev u H Hin Hne; [done|].
  simpl in H. destruct (b =? 95) eqn:Hb.
  - apply Z.eqb_eq in Hb. subst b.
    destruct (Py_ISDIGIT prev); [|done].
    destruct Hin as [<-|Hin]; [done|]. by eapply IH.
  - destruct ((prev =? 95) && negb (Py_ISDIGIT b)); [done|].
    destruct (underscores b s) as [u'|] eqn:Hu; [|done].
    inversion H; subst. destruct Hin as [->|Hin]; [by left|].
    right. by eapply IH.
Qed.

Section Unicode.

Variable Py_UNICODE_ISSPACE : Z -> bool.
Variable Py_UNICODE_TODECIMAL : Z -> option Z.

Lemma to_ascii_In c s :
  In c s -> c < 128 ->
  In c (to_ascii Py_UNICODE_ISSPACE Py_UNICODE_TODECIMAL s)
  \/ In 63 (to_ascii Py_UNICODE_ISSPACE Py_UNICODE_TODECIMAL s).
Proof.
  intros Hin Hc. induction s as [|b s IH]; [done|]. simpl.
  destruct (b <? 128) eqn:Hb.
  - destruct Hin as [->|Hin]; [left; by left|].
    destruct (IH Hin); [left|right]; by right.
  - destruct Hin as [->|Hin]; [lia|].
    destruct (Py_UNICODE_ISSPACE b);
      [destruct (IH Hin); [left|right]; by right|].
    destruct (Py_UNICODE_TODECIMAL b);
      [destruct (IH Hin); [left|right]; by right|].
    right. by left.
Qed.

(** No numeric token contains the letter [B]. *)
Lemma float_no_B s x :
  float Py_UNICODE_ISSPACE Py_UNICODE_TODECIMAL s = Some x -> ~ In 66 s.
Proof.
  unfold float. intros H Hin.
  destruct (underscores 0 (strip Py_ISSPACE
              (to_ascii Py_UNICODE_ISSPACE Py_UNICODE_TODECIMAL s)))
    as [u|] eqn:Hu; [|done].
  simpl in H. apply strtod_allowed in H.
  rewrite Forall_forall in H.
  destruct (to_ascii_In 66 s Hin) as [Hc|Hc]; [lia| |].
  - apply (strip_In Py_ISSPACE) in Hc; [|done].
    eapply underscores_In in Hc; [|done|done].
    apply list_elem_of_In, H in Hc. done.
  - apply (strip_In Py_ISSPACE) in Hc; [|done].
    eapply underscores_In in Hc; [|done|done].
    apply list_elem_of_In, H in Hc. done.
Qed.

End Unicode.

End FloatFacts.



(** ** UTF-8: encoding what was decoded gives the bytes back *)

Section Utf8.

Ltac ranges :=
  unfold in_range, is_cont in *;
  repeat match goal with
    | H : _ && _ = true |- _ => apply andb_prop in H as [? ?]
    | H : (_ <=? _) = true |- _ => apply Z.leb_le in H
    | H : (_ <=? _) = false |- _ => apply Z.leb_gt in H
    | H : (_ =? _) = true |- _ => apply Z.eqb_eq in H
    | H : (_ =? _) = false |- _ => apply Z.eqb_neq in H
    | H : _ && _ = false |- _ => apply andb_false_iff in H
    end.

Lemma encode_char_1 b0 :
  in_range 0 0x7F b0 = true -> encode_char b0 = Some [b0].
Proof. unfold encode_char. by intros ->. Qed.

Lemma encode_char_2 b0 b1 :
  in_range 0xC2 0xDF b0 = true -> is_cont b1 = true ->
  encode_char (b0 mod 32 * 64 + b1 mod 64) = Some [b0; b1].
Proof.
  intros H0 H1. ranges.
  assert (b0 mod 32 = b0 - 192) as ->
    by (symmetry; apply (Z.mod_unique _ _ 6); lia).
  assert (b1 mod 64 = b1 - 128) as ->
    by (symmetry; apply (Z.mod_unique _ _ 2); lia).
  unfold encode_char.
  destruct (in_range 0 127 _) eqn:R1; [exfalso; ranges; lia|].
  destruct (in_range 128 2047 _) eqn:R2; [|exfalso; ranges; lia].
  repeat f_equal; Z.div_mod_to_equations; lia.
Qed.

Lemma encode_char_3 b0 b1 b2 :
  in_range 0xE0 0xEF b0 = true ->
  in_range (if b0 =? 0xE0 then 0xA0 else 0x80)
           (if b0 =? 0xED then 0x9F else 0xBF) b1 = true ->
  is_cont b2 = true ->
  encode_char (b0 mod 16 * 4096 + b1 mod 64 * 64 + b2 mod 64)
  = Some [b0; b1; b2].
Proof.
  intros H0 H1 H2.
  assert (0x80 <= b1 <= 0xBF
          /\ (b0 = 0xE0 -> 0xA0 <= b1) /\ (b0 = 0xED -> b1 <= 0x9F))
    as (Hb1 & HE0 & HED).
  { destruct (b0 =? 224) eqn:E0; destruct (b0 =? 237) eqn:ED; ranges; lia. }
  clear H1. ranges.
  assert (b0 mod 16 = b0 - 224) as ->
    by (symmetry; apply (Z.mod_unique _ _ 14); lia).
  assert (b1 mod 64 = b1 - 128) as ->
    by (symmetry; apply (Z.mod_unique _ _ 2); lia).
  assert (b2 mod 64 = b2 - 128) as ->
    by (symmetry; apply (Z.mod_unique _ _ 2); lia).
  unfold encode_char.
  destruct (in_range 0 127 _) eqn:R1; [exfalso; ranges; lia|].
  destruct (in_range 128 2047 _) eqn:R2; [exfalso; ranges; lia|].
  destruct (in_range 55296 57343 _) eqn:R3; [exfalso; ranges; lia|].
  destruct (in_range 2048 65535 _) eqn:R4; [|exfalso; ranges; lia].
  repeat f_equal; Z.div_mod_to_equations; lia.
Qed.

Lemma encode_char_4 b0 b1 b2 b3 :
  in_range 0xF0 0xF4 b0 = true ->
  in_range (if b0 =? 0xF0 then 0x90 else 0x80)
           (if b0 =? 0xF4 then 0x8F else 0xBF) b1 = true ->
  is_cont b2 = true -> is_cont b3 = true ->
  encode_char (b0 mod 8 * 262144 + b1 mod 64 * 4096
               + b2 mod 64 * 64 + b3 mod 64)
  = Some [b0; b1; b2; b3].
Proof.
  intros H0 H1 H2 H3.
  assert (0x80 <= b1 <= 0xBF
          /\ (b0 = 0xF0 -> 0x90 <= b1) /\ (b0 = 0xF4 -> b1 <= 0x8F))
    as (Hb1 & HF0 & HF4).
  { destruct (b0 =? 240) eqn:F0; destruct (b0 =? 244) eqn:F4; ranges; lia. }
  clear H1. ranges.
  assert (b0 mod 8 = b0 - 240) as ->
    by (symmetry; apply (Z.mod_unique _ _ 30); lia).
  assert (b1 mod 64 = b1 - 128) as ->
    by (symmetry; apply (Z.mod_unique _ _ 2); lia).
  assert (b2 mod 64 = b2 - 128) as ->
    by (symmetry; apply (Z.mod_unique _ _ 2); lia).
  assert (b3 mod 64 = b3 - 128) as ->
    by (symmetry; apply (Z.mod_unique _ _ 2); lia).
  unfold encode_char.
  destruct (in_range 0 127 _) eqn:R1; [exfalso; ranges; lia|].
  destruct (in_range 128 2047 _) eqn:R2; [exfalso; ranges; lia|].
  destruct (in_range 55296 57343 _) eqn:R3; [exfalso; ranges; lia|].
  destruct (in_range 2048 65535 _) eqn:R4; [exfalso; ranges; lia|].
  destruct (in_range 65536 1114111 _) eqn:R5; [|exfalso; ranges; lia].
  repeat f_equal; Z.div_mod_to_equations; lia.
Qed.

Lemma encode_decode_bounded n :
  forall bs s, (length bs <= n)%nat ->
    decode_utf8 bs = Some s -> encode_utf8 s = Some bs.
Proof.
  induction n as [|n IH]; intros bs s Hlen.
  - destruct bs; [|simpl in Hlen; lia]. simpl. by intros [= <-].
  - destruct bs as [|b0 r0]; [simpl; by intros [= <-]|].
    simpl in Hlen. simpl decode_utf8.
    destruct (in_range 0 127 b0) eqn:R1.
    { destruct (decode_utf8 r0) as [s'|] eqn:Hd; [|done].
      intros [= <-]. simpl. rewrite (encode_char_1 _ R1).
      rewrite (IH r0 s'); [done|lia|done]. }
    destruct (in_range 194 223 b0) eqn:R2.
    { destruct r0 as [|b1 r1]; [done|].
      destruct (is_cont b1) eqn:C1; [|done].
      destruct (decode_utf8 r1) as [s'|] eqn:Hd; [|done].
      intros [= <-]. simpl. rewrite (encode_char_2 _ _ R2 C1).
      rewrite (IH r1 s'); [done|simpl in Hlen; lia|done]. }
    destruct (in_range 224 239 b0) eqn:R3.
    { destruct r0 as [|b1 [|b2 r2]]; [done|done|].
      destruct (in_range _ _ b1) eqn:C1; [|done].
      destruct (is_cont b2) eqn:C2; [|done]. simpl.
      destruct (decode_utf8 r2) as [s'|] eqn:Hd; [|done].
      intros [= <-]. simpl. rewrite (encode_char_3 _ _ _ R3 C1 C2).
      rewrite (IH r2 s'); [done|simpl in Hlen; lia|done]. }
    destruct (in_range 240 244 b0) eqn:R4; [|done].
    destruct r0 as [|b1 [|b2 [|b3 r3]]]; [done|done|done|].
    destruct (in_range _ _ b1) eqn:C1; [|done].
    destruct (is_cont b2) eqn:C2; [|done].
    destruct (is_cont b3) eqn:C3; [|done]. simpl.
    destruct (decode_utf8 r3) as [s'|] eqn:Hd; [|done].
    intros [= <-]. simpl. rewrite (encode_char_4 _ _ _ _ R4 C1 C2 C3).
    rewrite (IH r3 s'); [done|simpl in Hlen; lia|done].
Qed.

(** What [decode] accepts, [encode] turns back into the same bytes. *)
Lemma encode_decode bs s :
  decode_utf8 bs = Some s -> encode_utf8 s = Some bs.
Proof. by apply (encode_decode_bounded (length bs)). Qed.

End Utf8.

(** * The dispatcher: [process_queue_and_write] *)

Section Dispatcher.

Import enable_response.

Variable Py_UNICODE_ISSPACE : Z -> bool.
Variable Py_UNICODE_TODECIMAL : Z -> option Z.

Abbreviation float := (float Py_UNICODE_ISSPACE Py_UNICODE_TODECIMAL).
Abbreviation draw := (draw Py_UNICODE_ISSPACE Py_UNICODE_TODECIMAL).
Abbreviation parse := (parse Py_UNICODE_ISSPACE Py_UNICODE_TODECIMAL).
Abbreviation turn := (turn Py_UNICODE_ISSPACE Py_UNICODE_TODECIMAL).
Abbreviation process_queue_and_write :=
  (process_queue_and_write Py_UNICODE_ISSPACE Py_UNICODE_TODECIMAL).
Abbreviation prepare := (prepare Py_UNICODE_ISSPACE Py_UNICODE_TODECIMAL).
Abbreviation turn_effects :=
  (turn_effects Py_UNICODE_ISSPACE Py_UNICODE_TODECIMAL).
Abbreviation writes := (writes Py_UNICODE_ISSPACE Py_UNICODE_TODECIMAL).
Abbreviation wanted := (wanted Py_UNICODE_ISSPACE Py_UNICODE_TODECIMAL).
Abbreviation malformed :=
  (malformed Py_UNICODE_ISSPACE Py_UNICODE_TODECIMAL).

(** ** One turn *)

Lemma turn_empty led w : queue w = [] -> turn led w = (Blocked, w).
Proof.
  intros Hq. unfold enable_response.turn, try_finally, try_except,
    handle_message, bind, queue_get. by rewrite Hq.
Qed.

Opaque enable_response.parse command_for encode_utf8 contains lit strip.

Lemma turn_cons led w message q :
  queue w = message :: q ->
  turn led w =
    ((turn_effects led message (mjoin (head (faults w)))).2,
     emits (turn_effects led message (mjoin (head (faults w)))).1
       (set_faults (if writes message then tail (faults w) else faults w)
          (set_queue q w))).
Proof.
  intros Hq. destruct w as [q0 a f t]; simpl in Hq; subst q0.
  unfold turn_effects, writes, prepare, caught.
  unfold enable_response.turn, try_finally, try_except,
    handle_message, bind, queue_get, of_sum, or_raise, print, sleep, emit,
    ble_call, ret, raise, emits, set_faults, set_queue, add_event; simpl.
  destruct (contains (lit "BLINK") message).
  - destruct (encode_utf8 message) as [data|]; simpl.
    + destruct f as [|[e|] f]; simpl;
        [|destruct (is_ValueError e); [|destruct (is_Exception e)]|];
        simpl; repeat rewrite <- app_assoc; reflexivity.
    + repeat rewrite <- app_assoc; reflexivity.
  - destruct (parse message) as [e|r]; simpl.
    + destruct (is_ValueError e); [|destruct (is_Exception e)];
        simpl; repeat rewrite <- app_assoc; reflexivity.
    + destruct (encode_utf8 (strip isspace_ascii (command_for r))) as [data|];
        simpl.
      * destruct f as [|[e|] f]; simpl;
          [|destruct (is_ValueError e); [|destruct (is_Exception e)]|];
          simpl; repeat rewrite <- app_assoc; reflexivity.
      * repeat rewrite <- app_assoc; reflexivity.
Qed.

Transparent enable_response.parse command_for encode_utf8 contains lit strip.

(** ** Parsing a sensor payload *)

Lemma draw_inr n got tokens xs :
  draw n got tokens = inr xs ->
  length tokens = n /\ Forall2 (fun t x => float t = Some x) tokens xs.
Proof.
  revert got tokens xs. induction n as [|n IH]; intros got tokens xs H.
  - destruct tokens as [|t ts]; simpl in H.
    + inversion H. by split; [|constructor].
    + by destruct (float t).
  - destruct tokens as [|t ts]; simpl in H; [done|].
    destruct (float t) as [x|] eqn:Hx; [|done].
    destruct (draw n (S got) ts) as [e|xs'] eqn:Hd; [done|].
    inversion H; subst. destruct (IH _ _ _ Hd) as [Hl HF].
    split; [simpl; by f_equal|by constructor].
Qed.

Lemma draw_inl n got tokens e :
  draw n got tokens = inl e -> is_ValueError e = true.
Proof.
  revert got tokens. induction n as [|n IH]; intros got tokens H.
  - destruct tokens as [|t ts]; simpl in H; [done|].
    destruct (float t); by inversion H.
  - destruct tokens as [|t ts]; simpl in H; [by inversion H|].
    destruct (float t) as [x|]; [|by inversion H].
    destruct (draw n (S got) ts) as [e'|xs'] eqn:Hd; [|done].
    inversion H; subst. by eapply IH.
Qed.

Lemma draw_all n got tokens xs :
  length tokens = n ->
  Forall2 (fun t x => float t = Some x) tokens xs ->
  draw n got tokens = inr xs.
Proof.
  intros <- HF. revert got.
  induction HF as [|t x ts xs Hx HF IH]; intros got; simpl; [done|].
  by rewrite Hx, IH.
Qed.

Lemma all_or_none tokens :
  (exists xs, Forall2 (fun t x => float t = Some x) tokens xs)
  \/ Exists (fun t => float t = None) tokens.
Proof.
  induction tokens as [|t ts [[xs IH]|IH]].
  - left. by exists [].
  - destruct (float t) as [x|] eqn:Hx.
    + left. exists (x :: xs). by constructor.
    + right. by left.
  - right. by right.
Qed.

(** A payload is parsed exactly when it has six fields and every field is
    a number, and the six values are taken in the order of the fields. *)
Lemma parse_inr message r :
  parse message = inr r <->
  Forall2 (fun t x => float t = Some x) (Str.split 44 message)
    [gx r; gy r; gz r; ax r; ay r; az r].
Proof.
  unfold enable_response.parse. split.
  - destruct (draw 6 0 (Str.split 44 message)) as [e|xs] eqn:Hd; [done|].
    apply draw_inr in Hd as [Hl HF].
    apply Forall2_length in HF as Hlx. rewrite Hl in Hlx.
    do 7 (destruct xs as [|? xs]; try done).
    intros H; inversion H; subst. exact HF.
  - intros HF. apply Forall2_length in HF as Hl.
    rewrite (draw_all 6 0 _ _ Hl HF). by destruct r.
Qed.

(** Every failure of the parse is a [ValueError]. *)
Lemma parse_inl message :
  forall e, parse message = inl e -> is_ValueError e = true.
Proof.
  unfold enable_response.parse. intros e.
  destruct (draw 6 0 (Str.split 44 message)) as [e'|xs] eqn:Hd.
  - intros H; inversion H; subst. by eapply draw_inl.
  - apply draw_inr in Hd as [Hl HF].
    apply Forall2_length in HF as Hlx. rewrite Hl in Hlx.
    by do 7 (destruct xs as [|? xs]; try done).
Qed.

Lemma malformed_parse message :
  malformed message <-> exists e, parse message = inl e.
Proof.
  split.
  - intros Hm. destruct (parse message) as [e|r] eqn:Hp; [by eexists|].
    apply parse_inr in Hp. exfalso.
    destruct Hm as [Hl|Hx].
    + by apply Forall2_length in Hp.
    + apply Exists_exists in Hx as (t & Ht & Hn).
      apply list_elem_of_lookup in Ht as [i Hi].
      destruct (Forall2_lookup_l _ _ _ _ _ Hp Hi) as (x & _ & Hx).
      congruence.
  - intros [e He]. unfold malformed.
    destruct (decide (length (Str.split 44 message) = 6%nat)) as [Hl|];
      [right|by left].
    destruct (all_or_none (Str.split 44 message)) as [[xs Hxs]|Hx]; [|done].
    apply Forall2_length in Hxs as Hlx. rewrite Hl in Hlx.
    do 7 (destruct xs as [|? xs]; try done).
    assert (parse message = inr {| gx := s; gy := s0; gz := s1;
                                   ax := s2; ay := s3; az := s4 |})
      by (by apply parse_inr).
    congruence.
Qed.

(** A payload that parses does not contain the keyword. *)
Lemma parse_no_keyword message r :
  parse message = inr r -> contains (lit "BLINK") message = false.
Proof.
  intros Hp. apply parse_inr in Hp.
  destruct (contains (lit "BLINK") message) eqn:Hc; [|done]. exfalso.
  apply contains_In in Hc.
  destruct (split_In 44 66 message Hc) as (t & Ht & HB); [done|].
  apply list_elem_of_In, list_elem_of_lookup in Ht as [i Hi].
  destruct (Forall2_lookup_l _ _ _ _ _ Hp Hi) as (x & _ & Hx).
  by eapply FloatFacts.float_no_B.
Qed.

(** Each of the two commands is its own UTF-8 encoding, and [strip]
    leaves it as it is. *)
Lemma encode_command_for r :
  encode_utf8 (strip isspace_ascii (command_for r)) = Some (command_for r).
Proof. unfold command_for. by destruct (Float.gt _ _). Qed.

(** ** The loop *)

Lemma caught_cases e :
  (exists l, caught e = ([Print l], Ok tt))
  \/ (caught e = ([], Raise e) /\ is_Exception e = false).
Proof.
  unfold caught. destruct (is_ValueError e) eqn:Hv; [left; by eexists|].
  destruct (is_Exception e); [left; by eexists|by right].
Qed.

Lemma prepare_pre message :
  (prepare message).1 = [] \/ exists l, (prepare message).1 = [Print l].
Proof.
  unfold prepare.
  destruct (contains _ _); [right; by eexists|].
  destruct (enable_response.parse _ _ _); [by left|right; by eexists].
Qed.

(** A turn makes the write its message calls for, and no other call. *)
Lemma turn_effects_ble_ops led message fault :
  ble_ops (turn_effects led message fault).1
  = option_list (wanted led message).
Proof.
  unfold turn_effects, wanted.
  destruct (prepare_pre message) as [Hpre|[l Hpre]];
    destruct (prepare message) as [pre [e|[command data]]];
    simpl in Hpre; subst pre; simpl.
  all: try destruct fault as [e|].
  all: try (destruct (caught_cases e) as [[l' ->]|[-> _]]); reflexivity.
Qed.

(** A turn ends in [Ok] or in an exception that no clause catches. *)
Lemma turn_effects_outcome led message fault :
  (turn_effects led message fault).2 = Ok tt
  \/ exists e, (turn_effects led message fault).2 = Raise e
               /\ is_Exception e = false.
Proof.
  unfold turn_effects.
  destruct (prepare message) as [pre [e|[command data]]]; simpl.
  - destruct (caught_cases e) as [[l' ->]|[-> ?]]; [by left|right; by eexists].
  - destruct fault as [e|]; [|by left].
    destruct (caught_cases e) as [[l' ->]|[-> ?]]; [by left|right; by eexists].
Qed.

Lemma process_S n led w :
  process_queue_and_write (S n) led w =
    match turn led w with
    | (Ok _, w') => process_queue_and_write n led w'
    | r => r
    end.
Proof.
  unfold enable_response.process_queue_and_write. simpl. unfold bind.
  by destruct (turn led w) as [[[]| | |] w'].
Qed.

(** The writes come in the order of the queue: after any number of turns,
    the calls made are the writes called for by the messages taken so far,
    one after the other. *)
Lemma process_fifo led n w :
  exists k evs,
    (process_queue_and_write n led w).2.(trace) = trace w ++ evs
    /\ (process_queue_and_write n led w).2.(queue) = drop k (queue w)
    /\ ble_ops evs = omap (wanted led) (take k (queue w))
    /\ match (process_queue_and_write n led w).1 with
       | Running => k = n
       | Blocked => k = length (queue w)
       | Raise e => is_Exception e = false
       | Ok _ => False
       end.
Proof.
  revert w. induction n as [|n IH]; intros w.
  - exists 0%nat, []. simpl. by rewrite app_nil_r, drop_0.
  - rewrite process_S. destruct (queue w) as [|m q] eqn:Hq.
    + rewrite (turn_empty led w Hq). exists 0%nat, []. simpl.
      by rewrite app_nil_r, Hq.
    + rewrite (turn_cons led w m q Hq).
      pose proof (turn_effects_ble_ops led m (mjoin (head (faults w)))) as Hops.
      destruct (turn_effects_outcome led m (mjoin (head (faults w))))
        as [Hr|(e & Hr & He)]; rewrite Hr.
      * match goal with |- context [process_queue_and_write n led ?w1] =>
          destruct (IH w1) as (k & evs & Ht & Hk & Ho & Hres) end.
        simpl in Ht, Hk.
        exists (S k), ((turn_effects led m (mjoin (head (faults w)))).1 ++ evs).
        rewrite Ht, Hk, ble_ops_app, Hops, Ho. simpl.
        split; [by rewrite app_assoc|]. split; [done|].
        split; [by destruct (wanted led m)|].
        destruct (process_queue_and_write n led _).1; try done; by f_equal.
      * exists 1%nat, (turn_effects led m (mjoin (head (faults w)))).1.
        simpl. rewrite Hops. by destruct (wanted led m).
Qed.

Lemma gaps_from_app since a b :
  gaps_from since (a ++ b)
  = gaps_from since a ++ gaps_from (since_after since a) b.
Proof.
  revert since. induction a as [|ev a IH]; intros since; [done|].
  destruct ev as [| |[]| | |]; simpl; try apply IH.
  destruct since; simpl; by rewrite IH.
Qed.

(** A turn ends with its [sleep(1)], which comes after its write. *)
Lemma turn_effects_gaps led message fault since :
  rested since ->
  Forall (fun g => 1 <= g) (gaps_from since (turn_effects led message fault).1)
  /\ rested (since_after since (turn_effects led message fault).1).
Proof.
  intros Hs. unfold turn_effects.
  destruct (prepare_pre message) as [Hpre|[l Hpre]];
    destruct (prepare message) as [pre [e|[command data]]];
    simpl in Hpre; subst pre; simpl.
  all: try destruct fault as [e|].
  all: try (destruct (caught_cases e) as [[l' ->]|[-> _]]).
  all: destruct since as [g|]; simpl in *.
  all: split; repeat constructor; try lia.
Qed.

Lemma process_gaps led n w since :
  rested since ->
  exists evs,
    (process_queue_and_write n led w).2.(trace) = trace w ++ evs
    /\ Forall (fun g => 1 <= g) (gaps_from since evs).
Proof.
  revert w since. induction n as [|n IH]; intros w since Hs.
  - exists []. simpl. by rewrite app_nil_r.
  - rewrite process_S. destruct (queue w) as [|m q] eqn:Hq.
    + rewrite (turn_empty led w Hq). exists []. simpl.
      by rewrite app_nil_r.
    + rewrite (turn_cons led w m q Hq).
      destruct (turn_effects_gaps led m (mjoin (head (faults w))) since Hs)
        as [Hg Hs'].
      destruct (turn_effects_outcome led m (mjoin (head (faults w))))
        as [Hr|(e & Hr & He)]; rewrite Hr.
      * match goal with |- context [process_queue_and_write n led ?w1] =>
          destruct (IH w1 _ Hs') as (evs & Ht & Hf) end.
        simpl in Ht.
        exists ((turn_effects led m (mjoin (head (faults w)))).1 ++ evs).
        rewrite Ht, gaps_from_app. split; [by rewrite app_assoc|].
        by apply Forall_app.
      * by exists (turn_effects led m (mjoin (head (faults w)))).1.
Qed.

(** ** The claims *)

(** The turn for a message that parses to the reading [r]. *)
Lemma turn_reading led w message q r :
  queue w = message :: q ->
  parse message = inr r ->
  turn led w =
    ((match mjoin (head (faults w)) with
      | Some e => (caught e).2
      | None => Ok tt
      end),
     emits ([Print (Parsed_IMU_Data (gx r) (gy r) (gz r) (ax r) (ay r) (az r));
             Ble (write_gatt_char led (command_for r)) (mjoin (head (faults w)))]
            ++ (match mjoin (head (faults w)) with
                | Some e => (caught e).1
                | None => [Print (Sent_command (command_for r))]
                end) ++ [Sleep 1])
       (set_faults (tail (faults w)) (set_queue q w))).
Proof.
  intros Hq Hp. rewrite (turn_cons led w message q Hq).
  unfold turn_effects, writes, prepare.
  rewrite (parse_no_keyword _ _ Hp), Hp, encode_command_for.
  by destruct (mjoin (head (faults w))).
Qed.

(** The turn for a message that carries the keyword. *)
Lemma turn_keyword led w message q data :
  queue w = message :: q ->
  contains (lit "BLINK") message = true ->
  encode_utf8 message = Some data ->
  turn led w =
    ((match mjoin (head (faults w)) with
      | Some e => (caught e).2
      | None => Ok tt
      end),
     emits ([Print (Received_command_from_queue message);
             Ble (write_gatt_char led data) (mjoin (head (faults w)))]
            ++ (match mjoin (head (faults w)) with
                | Some e => (caught e).1
                | None => [Print (Sent_command message)]
                end) ++ [Sleep 1])
       (set_faults (tail (faults w)) (set_queue q w))).
Proof.
  intros Hq Hc He. rewrite (turn_cons led w message q Hq).
  unfold turn_effects, writes, prepare. rewrite Hc, He.
  by destruct (mjoin (head (faults w))).
Qed.

(** The turn for a message without the keyword that does not parse. *)
Lemma turn_rejected led w message q e :
  queue w = message :: q ->
  contains (lit "BLINK") message = false ->
  parse message = inl e ->
  turn led w =
    (Ok tt, emits [Print (Error_processing_queue e); Sleep 1] (set_queue q w)).
Proof.
  intros Hq Hc He. rewrite (turn_cons led w message q Hq).
  unfold turn_effects, writes, prepare, caught. rewrite Hc, He.
  rewrite (parse_inl _ _ He). simpl. by destruct w.
Qed.

(** C1.  When the message taken from the queue has six comma-separated
    fields and each is a number, the fields are read in the order gx, gy,
    gz, ax, ay, az, and the turn writes [BLINK_1S] to the LED
    characteristic if [gx > 0.50] and [BLINK_5S] otherwise; when the write
    goes through, the turn reports the command sent and sleeps. *)
Theorem threshold_rule led w message q t1 t2 t3 t4 t5 t6 x1 x2 x3 x4 x5 x6 :
  queue w = message :: q ->
  Str.split 44 message = [t1; t2; t3; t4; t5; t6] ->
  float t1 = Some x1 -> float t2 = Some x2 -> float t3 = Some x3 ->
  float t4 = Some x4 -> float t5 = Some x5 -> float t6 = Some x6 ->
  let command :=
    if Float.gt x1 Float.threshold then lit "BLINK_1S" else lit "BLINK_5S" in
  parse message
    = inr {| gx := x1; gy := x2; gz := x3; ax := x4; ay := x5; az := x6 |}
  /\ exists outcome r rest,
    turn led w =
      (r, emits (Print (Parsed_IMU_Data x1 x2 x3 x4 x5 x6)
                 :: Ble (write_gatt_char led command) outcome :: rest)
            (set_faults (tail (faults w)) (set_queue q w)))
    /\ outcome = mjoin (head (faults w))
    /\ (outcome = None ->
        r = Ok tt /\ rest = [Print (Sent_command command); Sleep 1]).
Proof.
  intros Hq Hs H1 H2 H3 H4 H5 H6 command.
  assert (parse message = inr {| gx := x1; gy := x2; gz := x3;
                                 ax := x4; ay := x5; az := x6 |}) as Hp.
  { apply parse_inr. rewrite Hs. simpl. by repeat constructor. }
  split; [done|].
  rewrite (turn_reading led w message q _ Hq Hp). simpl.
  do 3 eexists. split; [reflexivity|]. split; [reflexivity|].
  by intros ->.
Qed.

(** C5.  A message that contains the keyword [BLINK] is not parsed: its
    own UTF-8 bytes are written to the LED characteristic.  Any other
    message is parsed as six comma-separated floats, and either the
    command chosen from the reading is written or the parse error is
    reported and nothing is written. *)
Theorem keyword_routing led w message q :
  queue w = message :: q ->
  let fault := mjoin (head (faults w)) in
  let after_write command :=
    match fault with
    | Some e => (caught e).1
    | None => [Print (Sent_command command)]
    end ++ [Sleep 1] in
  if contains (lit "BLINK") message then
    forall data, encode_utf8 message = Some data ->
      (turn led w).2.(trace) =
        trace w ++ Print (Received_command_from_queue message)
                :: Ble (write_gatt_char led data) fault
                :: after_write message
  else
    match parse message with
    | inr r =>
        (turn led w).2.(trace) =
          trace w ++ Print (Parsed_IMU_Data (gx r) (gy r) (gz r)
                              (ax r) (ay r) (az r))
                  :: Ble (write_gatt_char led (command_for r)) fault
                  :: after_write (command_for r)
    | inl e =>
        (turn led w).2.(trace) =
          trace w ++ [Print (Error_processing_queue e); Sleep 1]
    end.
Proof.
  intros Hq fault after_write.
  destruct (contains (lit "BLINK") message) eqn:Hc.
  - intros data He. by rewrite (turn_keyword led w message q data Hq Hc He).
  - destruct (parse message) as [e|r] eqn:Hp.
    + by rewrite (turn_rejected led w message q e Hq Hc Hp).
    + by rewrite (turn_reading led w message q r Hq Hp).
Qed.

(** C2, as the code has it.  A payload that is not valid UTF-8 is not put
    on the queue: the handler logs one error and returns.  A payload
    without the keyword that has not six fields, or a field that is no
    number, yields no reading and no write: the turn prints one error
    line, sleeps and returns.  In both cases no exception leaves the step;
    no count of the rejected payloads is kept. *)
Theorem malformed_payload_rejected :
  (forall w data,
      decode_utf8 data = None ->
      devel_notifications.handler data w
      = (Ok tt,
         emits [Log (error_Error_handling_notification UnicodeDecodeError)] w))
  /\ (forall led w message q,
        queue w = message :: q ->
        contains (lit "BLINK") message = false ->
        malformed message ->
        exists e,
          parse message = inl e /\ is_ValueError e = true
          /\ turn led w
             = (Ok tt, emits [Print (Error_processing_queue e); Sleep 1]
                         (set_queue q w))).
Proof.
  split.
  - intros w data Hd.
    unfold devel_notifications.handler, try_except, bind, or_raise.
    by rewrite Hd.
  - intros led w message q Hq Hc [e He]%malformed_parse.
    exists e. split; [done|]. split; [exact (parse_inl message e He)|].
    by apply (turn_rejected led w message q e).
Qed.

(** C4.  The writes are issued in the order in which the messages were
    queued: after any number of turns, the calls made into the BLE library
    are exactly the writes called for by the first [k] messages of the
    queue, one after the other, and these [k] messages are the ones taken
    from the queue.  So for two messages taken from the queue, the first
    before the second, that each call for a write, the write of the first
    is issued before the write of the second.  While the loop runs, [k] is
    the number of turns; once it waits on the empty queue, [k] is the
    length of the queue.  The writes that went through are among the writes
    issued, in the same order. *)
Theorem fifo_dispatch led n w :
  exists k evs,
    (process_queue_and_write n led w).2.(trace) = trace w ++ evs
    /\ (process_queue_and_write n led w).2.(queue) = drop k (queue w)
    /\ ble_ops evs = omap (wanted led) (take k (queue w))
    /\ (forall i j C1 C2 write1 write2,
          (i < j < k)%nat ->
          queue w !! i = Some C1 -> queue w !! j = Some C2 ->
          wanted led C1 = Some write1 -> wanted led C2 = Some write2 ->
          exists i' j', (i' < j')%nat
                        /\ ble_ops evs !! i' = Some write1
                        /\ ble_ops evs !! j' = Some write2)
    /\ sublist (ble_done evs) (ble_ops evs)
    /\ match (process_queue_and_write n led w).1 with
       | Running => k = n
       | Blocked => k = length (queue w)
       | Raise e => is_Exception e = false
       | Ok _ => False
       end.
Proof.
  destruct (process_fifo led n w) as (k & evs & Ht & Hk & Ho & Hr).
  exists k, evs. split; [done|]. split; [done|]. split; [done|].
  split; [|split; [apply ble_done_sublist|done]].
  intros i j C1 C2 write1 write2 Hij H1 H2 Hw1 Hw2. rewrite Ho.
  apply (omap_in_order (wanted led) (take k (queue w)) i j C1 C2);
    try done; try lia; rewrite lookup_take_lt by lia; done.
Qed.

(** C8, as the code has it.  The spacing of the writes is a fixed sleep:
    every turn ends with [sleep(1)], so in any run at least one second is
    slept between a write and the next one, however few the commands. *)
Theorem fixed_sleep_between_writes led n w :
  exists evs,
    (process_queue_and_write n led w).2.(trace) = trace w ++ evs
    /\ Forall (fun g => 1 <= g) (gaps evs).
Proof.
  by apply process_gaps.
Qed.

End Dispatcher.

(** ** The dispatcher on concrete payloads *)

Section DispatcherExamples.

Import enable_response.
Local Open Scope string_scope.

Abbreviation turn := (turn ascii_ISSPACE ascii_TODECIMAL).
Abbreviation float := (float ascii_ISSPACE ascii_TODECIMAL).
Abbreviation process_queue_and_write :=
  (process_queue_and_write ascii_ISSPACE ascii_TODECIMAL).

(** The threshold [0.50] is the binary64 number 2^52 * 2^-53. *)
Example threshold_value :
  Float.threshold = S754_finite false 4503599627370496 (-53).
Proof. vm_compute. reflexivity. Qed.

(** The payload [0.60,0,0,0,0,0] yields [BLINK_1S]. *)
Lemma threshold_rule_witness :
  let x := S754_finite false 5404319552844595 (-53) in
  let z := S754_zero false in
  Str.split 44 (lit "0.60,0,0,0,0,0")
    = [lit "0.60"; lit "0"; lit "0"; lit "0"; lit "0"; lit "0"]
  /\ float (lit "0.60") = Some x
  /\ float (lit "0") = Some z
  /\ turn "led" (world_with [lit "0.60,0,0,0,0,0"])
     = (Ok tt,
        {| queue := []; air := []; faults := [];
           trace := [Print (Parsed_IMU_Data x z z z z z);
                     Ble (write_gatt_char "led" (lit "BLINK_1S")) None;
                     Print (Sent_command (lit "BLINK_1S"));
                     Sleep 1] |}).
Proof.
  intros x z.
  assert (Str.split 44 (lit "0.60,0,0,0,0,0")
          = [lit "0.60"; lit "0"; lit "0"; lit "0"; lit "0"; lit "0"]) as Hs
    by (vm_compute; reflexivity).
  assert (float (lit "0.60") = Some x) as Hx by (vm_compute; reflexivity).
  assert (float (lit "0") = Some z) as Hz by (vm_compute; reflexivity).
  split; [exact Hs|]. split; [exact Hx|]. split; [exact Hz|].
  destruct (threshold_rule ascii_ISSPACE ascii_TODECIMAL "led"
              (world_with [lit "0.60,0,0,0,0,0"]) (lit "0.60,0,0,0,0,0") []
              _ _ _ _ _ _ x z z z z z eq_refl Hs Hx Hz Hz Hz Hz Hz)
    as (_ & outcome & r & rest & Ht & Ho & Hrest).
  simpl in Ho. destruct (Hrest Ho) as [-> ->]. rewrite Ht, Ho.
  vm_compute. reflexivity.
Defined.

(** The payload [0.10,0,0,0,0,0] yields [BLINK_5S]. *)
Example payload_below_threshold :
  turn "led" (world_with [lit "0.10,0,0,0,0,0"])
  = (Ok tt,
     {| queue := []; air := []; faults := [];
        trace := [Print (Parsed_IMU_Data
                           (S754_finite false 7205759403792794 (-56))
                           (S754_zero false) (S754_zero false)
                           (S754_zero false) (S754_zero false)
                           (S754_zero false));
                  Ble (write_gatt_char "led" (lit "BLINK_5S")) None;
                  Print (Sent_command (lit "BLINK_5S"));
                  Sleep 1] |}).
Proof. vm_compute. reflexivity. Qed.

(** The threshold itself is not above the threshold, and neither is the
    decimal [0.50000000000000001], which rounds to it. *)
Example payload_at_threshold :
  (turn "led" (world_with [lit "0.50,0,0,0,0,0"])).2.(trace) !! 1%nat
  = Some (Ble (write_gatt_char "led" (lit "BLINK_5S")) None)
  /\ (turn "led" (world_with [lit "0.50000000000000001,0,0,0,0,0"])).2.(trace)
     !! 1%nat
     = Some (Ble (write_gatt_char "led" (lit "BLINK_5S")) None)
  /\ (turn "led" (world_with [lit "0.5000000000000001,0,0,0,0,0"])).2.(trace)
     !! 1%nat
     = Some (Ble (write_gatt_char "led" (lit "BLINK_1S")) None).
Proof. vm_compute. by repeat split. Qed.

(** A command on the queue is written as it is. *)
Lemma keyword_routing_witness :
  (turn "led" (world_with [lit "BLINK_5S"])).2.(trace)
  = [Print (Received_command_from_queue (lit "BLINK_5S"));
     Ble (write_gatt_char "led" (lit "BLINK_5S")) None;
     Print (Sent_command (lit "BLINK_5S")); Sleep 1].
Proof.
  exact (keyword_routing ascii_ISSPACE ascii_TODECIMAL "led"
           (world_with [lit "BLINK_5S"]) (lit "BLINK_5S") [] eq_refl
           (lit "BLINK_5S") eq_refl).
Defined.

(** Text with the keyword in it is written as it is even when it is no
    command, and a payload of numbers with the keyword in a field is not
    parsed. *)
Example keyword_anywhere :
  ble_ops (process_queue_and_write 2 "led"
             (world_with [lit "do not BLINK"; lit "1,2,3,4,5,6BLINK"])).2.(trace)
  = [write_gatt_char "led" (lit "do not BLINK");
     write_gatt_char "led" (lit "1,2,3,4,5,6BLINK")].
Proof. vm_compute. reflexivity. Qed.

(** A notification that is not UTF-8 and a payload of three fields. *)
Lemma malformed_payload_rejected_witness :
  devel_notifications.handler [255] (world_with [])
  = (Ok tt,
     emits [Log (error_Error_handling_notification UnicodeDecodeError)]
       (world_with []))
  /\ exists e,
       parse ascii_ISSPACE ascii_TODECIMAL (lit "1,2,3") = inl e
       /\ is_ValueError e = true
       /\ turn "led" (world_with [lit "1,2,3"])
          = (Ok tt, emits [Print (Error_processing_queue e); Sleep 1]
                      (set_queue [] (world_with [lit "1,2,3"]))).
Proof.
  split.
  - apply (proj1 (malformed_payload_rejected ascii_ISSPACE ascii_TODECIMAL)).
    reflexivity.
  - apply (proj2 (malformed_payload_rejected ascii_ISSPACE ascii_TODECIMAL)
             "led" (world_with [lit "1,2,3"]) (lit "1,2,3") []).
    + reflexivity.
    + vm_compute. reflexivity.
    + left. vm_compute. intros H. discriminate H.
Defined.

(** What the turn prints for each kind of malformed payload: too few
    fields, too many, a field that is no number. *)
Example malformed_payloads :
  (process_queue_and_write 3 "led"
     (world_with [lit "1,2,3"; lit "1,2,3,4,5,6,7"; lit "1,2,x,4,5,6"])).2.(trace)
  = [Print (Error_processing_queue (ValueError (not_enough_values 3)));
     Sleep 1;
     Print (Error_processing_queue (ValueError too_many_values));
     Sleep 1;
     Print (Error_processing_queue (ValueError (could_not_convert (lit "x"))));
     Sleep 1].
Proof. vm_compute. reflexivity. Qed.

(** C2 fails as stated: after a notification that is not UTF-8 the queue,
    which is all the state the handler has, is what it was, so nothing
    kept by the script has been incremented; the only effect is one log
    record. *)
Lemma no_drop_counter :
  devel_notifications.handler [255] (world_with [])
  = (Ok tt,
     {| queue := []; air := []; faults := [];
        trace := [Log (error_Error_handling_notification
                         UnicodeDecodeError)] |})
  /\ ~ exists drop_counter : list str -> nat,
        drop_counter
          (devel_notifications.handler [255] (world_with [])).2.(queue)
        = S (drop_counter (world_with []).(queue)).
Proof.
  split; [reflexivity|]. intros [drop_counter H]. simpl in H. lia.
Qed.

(** Two commands that are queued together are written in their order. *)
Example fifo_two_commands :
  ble_done (process_queue_and_write 3 "led"
              (world_with [lit "BLINK_5S"; lit "0.60,0,0,0,0,0"])).2.(trace)
  = [write_gatt_char "led" (lit "BLINK_5S");
     write_gatt_char "led" (lit "BLINK_1S")]
  /\ (process_queue_and_write 3 "led"
        (world_with [lit "BLINK_5S"; lit "0.60,0,0,0,0,0"])).1 = Blocked.
Proof. vm_compute. by split. Qed.

(** C8 fails as stated: two commands that are on the queue together are
    written one second apart. *)
Lemma burst_is_delayed :
  (process_queue_and_write 2 "led"
     (world_with [lit "BLINK_1S"; lit "BLINK_5S"])).2.(trace)
  = [Print (Received_command_from_queue (lit "BLINK_1S"));
     Ble (write_gatt_char "led" (lit "BLINK_1S")) None;
     Print (Sent_command (lit "BLINK_1S"));
     Sleep 1;
     Print (Received_command_from_queue (lit "BLINK_5S"));
     Ble (write_gatt_char "led" (lit "BLINK_5S")) None;
     Print (Sent_command (lit "BLINK_5S"));
     Sleep 1]
  /\ gaps (process_queue_and_write 2 "led"
             (world_with [lit "BLINK_1S"; lit "BLINK_5S"])).2.(trace)
     = [1]
  /\ gaps (process_queue_and_write 2 "led"
             (world_with [lit "BLINK_1S"; lit "BLINK_5S"])).2.(trace)
     <> [0].
Proof. vm_compute. by repeat split. Qed.

End DispatcherExamples.

(** * The claims about [devel_notifications.py] *)

Section Notifications.

Import devel_notifications.

(** A notification that decodes is logged and put at the back of the
    queue. *)
Lemma handler_decoded w data s :
  decode_utf8 data = Some s ->
  handler data w
  = (Ok tt, emits [Log (info_Received_notification s)]
              (set_queue (queue w ++ [s]) w)).
Proof.
  intros Hd. unfold handler, try_except, bind, or_raise. by rewrite Hd.
Qed.





(** One turn of the command loop on a queue that is not empty. *)
Lemma command_loop_cons led w command q data :
  queue w = command :: q ->
  encode_utf8 command = Some data ->
  command_loop led w
  = (match mjoin (head (faults w)) with
     | Some e => Raise e
     | None => Ok tt
     end,
     emits ([Log (info_Sending_command command);
             Ble (write_gatt_char led data) (mjoin (head (faults w)))]
            ++ match mjoin (head (faults w)) with
               | Some e => []
               | None => [Sleep 1]
               end)
       (set_faults (tail (faults w)) (set_queue q w))).
Proof.
  intros Hq He. destruct w as [q0 a f t]. simpl in Hq. subst q0.
  unfold command_loop, bind, queue_empty, gets, queue_get, or_raise.
  simpl. rewrite He. unfold ble_call, sleep, log, emit, emits, add_event,
    set_faults, set_queue. simpl.
  destruct f as [|[e|] f]; simpl; repeat rewrite <- app_assoc; reflexivity.
Qed.

(** C10.  The command loop of [devel_notifications.main] writes every
    item it takes from the queue to the LED characteristic as its UTF-8
    bytes, whatever the item is: nothing is looked for in it, nothing is
    parsed, nothing is decided.  For an item that the loop's own handler
    put there, these are the bytes of the notification itself. *)
Theorem command_loop_writes_verbatim :
  (forall led w command q data,
      queue w = command :: q ->
      encode_utf8 command = Some data ->
      exists r rest,
        command_loop led w
        = (r, emits (Log (info_Sending_command command)
                     :: Ble (write_gatt_char led data)
                          (mjoin (head (faults w))) :: rest)
                (set_faults (tail (faults w)) (set_queue q w)))
        /\ ble_ops rest = [])
  /\ (forall led w raw decoded,
        queue w = [] ->
        decode_utf8 raw = Some decoded ->
        exists rest,
          ((handler raw;; command_loop led) w).2.(trace)
          = trace w ++ Log (info_Received_notification decoded)
              :: Log (info_Sending_command decoded)
              :: Ble (write_gatt_char led raw) (mjoin (head (faults w)))
              :: rest
          /\ ble_ops rest = []).
Proof.
  split.
  - intros led w command q data Hq He.
    rewrite (command_loop_cons led w command q data Hq He).
    do 2 eexists. split; [reflexivity|].
    by destruct (mjoin (head (faults w))).
  - intros led w raw decoded Hq Hd. unfold bind.
    rewrite (handler_decoded w raw decoded Hd).
    rewrite (command_loop_cons led _ decoded [] raw).
    + simpl. eexists. rewrite <- app_assoc. split; [reflexivity|].
      by destruct (mjoin (head (faults w))).
    + simpl. by rewrite Hq.
    + by apply encode_decode.
Qed.

Lemma command_loop_writes_verbatim_witness :
  (exists r rest,
      command_loop "led"%string (world_with [lit "0.60,0,0,0,0,0"])
      = (r, emits (Log (info_Sending_command (lit "0.60,0,0,0,0,0"))
                   :: Ble (write_gatt_char "led"%string (lit "0.60,0,0,0,0,0")) None
                   :: rest)
              (world_with []))
      /\ ble_ops rest = [])
  /\ (exists rest,
        ((handler [49; 44; 226; 130; 172];; command_loop "led"%string)
           (world_with [])).2.(trace)
        = [] ++ Log (info_Received_notification [49; 44; 8364])
             :: Log (info_Sending_command [49; 44; 8364])
             :: Ble (write_gatt_char "led"%string [49; 44; 226; 130; 172]) None
             :: rest
        /\ ble_ops rest = []).
Proof.
  split.
  - exact (proj1 command_loop_writes_verbatim "led"%string
             (world_with [lit "0.60,0,0,0,0,0"]) (lit "0.60,0,0,0,0,0") []
             (lit "0.60,0,0,0,0,0") eq_refl eq_refl).
  - exact (proj2 command_loop_writes_verbatim "led"%string (world_with [])
             [49; 44; 226; 130; 172] [49; 44; 8364] eq_refl eq_refl).
Defined.

(** The sensor payload that [process_queue_and_write] would answer with
    [BLINK_1S] goes out unchanged here. *)
Example command_loop_sensor_payload :
  ((handler (lit "0.60,0,0,0,0,0");; command_loop "led"%string)
     (world_with [])).2.(trace)
  = [Log (info_Received_notification (lit "0.60,0,0,0,0,0"));
     Log (info_Sending_command (lit "0.60,0,0,0,0,0"));
     Ble (write_gatt_char "led"%string (lit "0.60,0,0,0,0,0")) None;
     Sleep 1].
Proof. vm_compute. reflexivity. Qed.

End Notifications.

(** * Starting the scripts *)

Section Startup.

Local Open Scope string_scope.



(** A command line that the parser rejects ends the script in the parser,
    with status 2, and [--help] with status 0. *)
Example script_rejected_command_line :
  (devel_notifications.script 5 ["2A57"; "2A59"] (world_with [])).1
  = Raise (SystemExit 2)
  /\ (devel_notifications.script 5 ["--help"] (world_with [])).1
     = Raise (SystemExit 0).
Proof. vm_compute. by split. Qed.

(** Called with its six arguments, as [run_notifications] does, [main]
    does run. *)
Example run_notifications_runs :
  ble_ops (enable_response.run_notifications 1 (VStr "Nano") VNone
             (VStr "2A57") (VStr "2A59") (VBool false)
             {| queue := []; air := [{| address := "AA:BB"; name := "Nano" |}];
                faults := []; trace := [] |}).2.(trace)
  = [find_device_by_name (Some "Nano") (Some false);
     connect {| address := "AA:BB"; name := "Nano" |};
     start_notify "2A57"].
Proof. vm_compute. reflexivity. Qed.

Lemma scan_by_name_none n use_bdaddr w :
  mjoin (head (faults w)) = None ->
  Forall (fun d => Some (name d) <> n) (air w) ->
  scan_by_name n use_bdaddr w
  = (Ok None, emits [Ble (find_device_by_name n use_bdaddr) None]
                (set_faults (tail (faults w)) w)).
Proof.
  intros Hf Ha.
  assert (list_find (fun d => Some (name d) = n) (air w) = None) as Hn
    by (by apply list_find_None).
  unfold scan_by_name, bind, ble_call, gets.
  destruct w as [q a f t]. simpl in *.
  destruct f as [|[e|] f]; [|done|]; simpl; by rewrite Hn.
Qed.

Lemma scan_by_address_none a use_bdaddr w :
  mjoin (head (faults w)) = None ->
  Forall (fun d => lower_string (address d) <> lower_string a) (air w) ->
  scan_by_address a use_bdaddr w
  = (Ok None, emits [Ble (find_device_by_address a use_bdaddr) None]
                (set_faults (tail (faults w)) w)).
Proof.
  intros Hf Ha.
  assert (list_find (fun d => lower_string (address d) = lower_string a)
            (air w) = None) as Hn
    by (by apply list_find_None).
  unfold scan_by_address, bind, ble_call, gets.
  destruct w as [q a' f t]. simpl in *.
  destruct f as [|[e|] f]; [|done|]; simpl; by rewrite Hn.
Qed.

(** C6, as the code has it.  When the scan finds no device, [main] of
    either script reports it and returns without connecting, and the
    interpreter exits with status 0, as after a clean run.  The status is
    1 when an exception leaves [main], as when the scan itself fails. *)
Theorem device_not_found_exits_0 :
  (forall sp dc n device_name led w,
      mjoin (head (faults w)) = None ->
      Forall (fun d => name d <> device_name) (air w) ->
      enable_response.main sp dc n device_name led w
      = (Ok tt,
         emits [Print Scanning_for_device;
                Ble (find_device_by_name (Some device_name) None) None;
                Print (Device_not_found device_name)]
           (set_faults (tail (faults w)) w))
      /\ exit_status (enable_response.main sp dc n device_name led w).1
         = Some 0)
  /\ (forall n device_name characteristic led use_bdaddr w,
        mjoin (head (faults w)) = None ->
        Forall (fun d => name d <> device_name) (air w) ->
        devel_notifications.main n (Some device_name) None
          characteristic led use_bdaddr w
        = (Ok tt,
           emits [Log info_Starting_scan;
                  Ble (find_device_by_name (Some device_name)
                         (Some use_bdaddr)) None;
                  Log (error_Could_not_find_name (Some device_name))]
             (set_faults (tail (faults w)) w))
        /\ exit_status (devel_notifications.main n (Some device_name) None
                          characteristic led use_bdaddr w).1
           = Some 0)
  /\ (forall n device_name c a characteristic led use_bdaddr w,
        mjoin (head (faults w)) = None ->
        Forall (fun d => lower_string (address d)
                         <> lower_string (String c a)) (air w) ->
        devel_notifications.main n device_name (Some (String c a))
          characteristic led use_bdaddr w
        = (Ok tt,
           emits [Log info_Starting_scan;
                  Ble (find_device_by_address (String c a) use_bdaddr) None;
                  Log (error_Could_not_find_address (String c a))]
             (set_faults (tail (faults w)) w))
        /\ exit_status (devel_notifications.main n device_name
                          (Some (String c a)) characteristic led
                          use_bdaddr w).1
           = Some 0)
  /\ (forall sp dc n device_name led w e,
        head (faults w) = Some (Some e) ->
        is_Exception e = true ->
        (enable_response.main sp dc n device_name led w).1 = Raise e
        /\ exit_status (enable_response.main sp dc n device_name led w).1
           = Some 1).
Proof.
  split; [|split; [|split]].
  - intros sp dc n device_name led w Hf Ha.
    assert (enable_response.main sp dc n device_name led w
      = (Ok tt,
         emits [Print Scanning_for_device;
                Ble (find_device_by_name (Some device_name) None) None;
                Print (Device_not_found device_name)]
           (set_faults (tail (faults w)) w))) as H.
    { unfold enable_response.main, bind, print, emit.
      rewrite add_event_emits.
      rewrite (scan_by_name_none (Some device_name) None); [|done|].
      - rewrite set_faults_emits, !emits_emits, add_event_emits,
          emits_emits. reflexivity.
      - eapply Forall_impl; [exact Ha|]. intros d Hd. congruence. }
    by rewrite H.
  - intros n device_name characteristic led use_bdaddr w Hf Ha.
    assert (devel_notifications.main n (Some device_name) None
              characteristic led use_bdaddr w
      = (Ok tt,
         emits [Log info_Starting_scan;
                Ble (find_device_by_name (Some device_name)
                       (Some use_bdaddr)) None;
                Log (error_Could_not_find_name (Some device_name))]
           (set_faults (tail (faults w)) w))) as H.
    { unfold devel_notifications.main, bind, log, emit.
      rewrite add_event_emits.
      rewrite (scan_by_name_none (Some device_name) (Some use_bdaddr));
        [|done|].
      - rewrite set_faults_emits, !emits_emits, add_event_emits,
          emits_emits. reflexivity.
      - eapply Forall_impl; [exact Ha|]. intros d Hd. congruence. }
    by rewrite H.
  - intros n device_name c a characteristic led use_bdaddr w Hf Ha.
    assert (devel_notifications.main n device_name (Some (String c a))
              characteristic led use_bdaddr w
      = (Ok tt,
         emits [Log info_Starting_scan;
                Ble (find_device_by_address (String c a) use_bdaddr) None;
                Log (error_Could_not_find_address (String c a))]
           (set_faults (tail (faults w)) w))) as H.
    { unfold devel_notifications.main, bind, log, emit.
      rewrite add_event_emits.
      rewrite (scan_by_address_none (String c a) use_bdaddr); [|done|done].
      rewrite set_faults_emits, !emits_emits, add_event_emits, emits_emits.
      reflexivity. }
    by rewrite H.
  - intros sp dc n device_name led w e Hf He.
    assert ((enable_response.main sp dc n device_name led w).1 = Raise e)
      as H.
    { unfold enable_response.main, bind, print, emit, scan_by_name, bind,
        ble_call. simpl.
      destruct (faults w) as [|f fs]; [done|]. simpl in Hf.
      by injection Hf as ->. }
    rewrite H. split; [done|]. by destruct e.
Qed.

End Startup.

Section StartupExamples.

Local Open Scope string_scope.

Lemma device_not_found_exits_0_witness :
  (enable_response.main ascii_ISSPACE ascii_TODECIMAL 1 "Nano" "2A59"
     (world_with [])
   = (Ok tt,
      emits [Print Scanning_for_device;
             Ble (find_device_by_name (Some "Nano") None) None;
             Print (Device_not_found "Nano")]
        (set_faults (tail (faults (world_with []))) (world_with [])))
   /\ exit_status (enable_response.main ascii_ISSPACE ascii_TODECIMAL 1
                     "Nano" "2A59" (world_with [])).1
      = Some 0)
  /\ (devel_notifications.main 1 (Some "Nano") None "2A57" "2A59" false
        (world_with [])
      = (Ok tt,
         emits [Log info_Starting_scan;
                Ble (find_device_by_name (Some "Nano") (Some false)) None;
                Log (error_Could_not_find_name (Some "Nano"))]
           (set_faults (tail (faults (world_with []))) (world_with [])))
      /\ exit_status (devel_notifications.main 1 (Some "Nano") None "2A57"
                        "2A59" false (world_with [])).1
         = Some 0)
  /\ (devel_notifications.main 1 None (Some "AA:BB") "2A57" "2A59" false
        (world_with [])
      = (Ok tt,
         emits [Log info_Starting_scan;
                Ble (find_device_by_address "AA:BB" false) None;
                Log (error_Could_not_find_address "AA:BB")]
           (set_faults (tail (faults (world_with []))) (world_with [])))
      /\ exit_status (devel_notifications.main 1 None (Some "AA:BB") "2A57"
                        "2A59" false (world_with [])).1
         = Some 0)
  /\ ((enable_response.main ascii_ISSPACE ascii_TODECIMAL 1 "Nano" "2A59"
         (set_faults [Some (BleakError 1)] (world_with []))).1
      = Raise (BleakError 1)
      /\ exit_status
           (enable_response.main ascii_ISSPACE ascii_TODECIMAL 1 "Nano"
              "2A59" (set_faults [Some (BleakError 1)] (world_with []))).1
         = Some 1).
Proof.
  split; [|split; [|split]].
  - apply (proj1 device_not_found_exits_0); [reflexivity|constructor].
  - apply (proj1 (proj2 device_not_found_exits_0));
      [reflexivity|constructor].
  - apply (proj1 (proj2 (proj2 device_not_found_exits_0)) 1%nat None
             "A"%char "A:BB"); [reflexivity|constructor].
  - apply (proj2 (proj2 (proj2 device_not_found_exits_0))); reflexivity.
Defined.

(** C6 fails as stated: with no device in range, both processes of
    [enable_response.py] report that the device was not found and end
    with status 0. *)
Lemma device_not_found_status_0 :
  enable_response.script ascii_ISSPACE ascii_TODECIMAL 1
    ["--name"; "Nano"; "2A57"; "2A59"] (world_with [])
  = (Ok tt,
     {| queue := []; air := []; faults := [];
        trace := [Process_start "run_notifications"
                    [VStr "Nano"; VNone; VStr "2A57"; VStr "2A59";
                     VBool false];
                  Print Scanning_for_device;
                  Ble (find_device_by_name (Some "Nano") None) None;
                  Print (Device_not_found "Nano");
                  Process_join] |})
  /\ exit_status
       (enable_response.script ascii_ISSPACE ascii_TODECIMAL 1
          ["--name"; "Nano"; "2A57"; "2A59"] (world_with [])).1
     = Some 0
  /\ enable_response.run_notifications 1 (VStr "Nano") VNone (VStr "2A57")
       (VStr "2A59") (VBool false) (world_with [])
     = (Ok tt,
        {| queue := []; air := []; faults := [];
           trace := [Log info_Starting_scan;
                     Ble (find_device_by_name (Some "Nano") (Some false))
                       None;
                     Log (error_Could_not_find_name (Some "Nano"))] |})
  /\ exit_status
       (enable_response.run_notifications 1 (VStr "Nano") VNone
          (VStr "2A57") (VStr "2A59") (VBool false) (world_with [])).1
     = Some 0.
Proof. vm_compute. by repeat split. Qed.

(** In the command loop of [devel_notifications.main] a write that fails
    is not caught: the exception leaves [main], after [stop_notify] and
    the disconnection. *)
Example command_loop_write_failure :
  (devel_notifications.main 2 (Some "Nano") None "2A57" "2A59" false
     {| queue := [lit "1,2"];
        air := [{| address := "AA:BB"; name := "Nano" |}];
        faults := [None; None; None; Some (BleakError 1)];
        trace := [] |}).1
  = Raise (BleakError 1).
Proof. vm_compute. reflexivity. Qed.

End StartupExamples.

(** * The command line *)

Module argparse_facts.

Import argparse.
Local Open Scope string_scope.

Lemma assoc_In o l a : assoc o l = Some a -> exists o', In (o', a) l.
Proof.
  induction l as [|[o' a'] l IH]; simpl; [done|].
  destruct (String.eqb o' o).
  - intros [= <-]. exists o'. by left.
  - intros H. destruct (IH H) as [o'' Ho]. exists o''. by right.
Qed.

Lemma option_string_actions_In p o a :
  In (o, a) (option_string_actions p) -> In a (actions p).
Proof.
  unfold option_string_actions. intros H.
  apply in_flat_map in H as (a' & Ha' & H).
  apply in_map_iff in H as (o' & [= _ <-] & _). done.
Qed.

Lemma lookup_option_In p o a :
  lookup_option p o = Some a -> In a (actions p).
Proof.
  intros H. apply assoc_In in H as [o' H].
  by eapply option_string_actions_In.
Qed.

Lemma get_option_tuples_In p arg a o e :
  In (a, o, e) (get_option_tuples p arg) -> In a (actions p).
Proof.
  unfold get_option_tuples. destruct (String.prefix "--" arg).
  - destruct (match split_eq arg with
              | Some (o0, e0) => (o0, Some e0)
              | None => (arg, None)
              end) as [pre ex].
    intros H. apply list_elem_of_In, list_elem_of_fmap in H
      as ([o' a'] & [= -> _ _] & H).
    apply list_elem_of_filter in H as [_ H].
    apply list_elem_of_In in H. by eapply option_string_actions_In.
  - intros H. apply list_elem_of_In, list_elem_of_omap in H
      as ([o' a'] & H & Hs).
    apply list_elem_of_In in H. simpl in Hs.
    destruct (String.eqb o' _); [|destruct (String.prefix arg o')];
      inversion Hs; subst; by eapply option_string_actions_In.
Qed.

Lemma parse_optional_of_parser p arg c :
  parse_optional p arg = inr c -> of_parser p c.
Proof.
  unfold parse_optional. destruct arg as [|ch arg']; [by intros [= <-]|].
  destruct (negb _); [by intros [= <-]|].
  destruct (lookup_option p (String ch arg')) as [a|] eqn:Hl.
  { intros [= <-]. by eapply lookup_option_In. }
  destruct (_ =? 1)%nat; [by intros [= <-]|].
  destruct (match split_eq (String ch arg') with
            | Some (o, e) => (fun a => (a, o, e)) <$> lookup_option p o
            | None => None
            end) as [[[a o] e]|] eqn:Hs.
  { intros [= <-]. simpl.
    destruct (split_eq (String ch arg')) as [[o' e']|]; [|done].
    destruct (lookup_option p o') as [a'|] eqn:Hl'; [|done].
    inversion Hs; subst. by eapply lookup_option_In. }
  destruct (get_option_tuples p (String ch arg')) as [|[[a o] e] [|? ?]]
    eqn:Hg.
  - destruct (negative_number _); [by intros [= <-]|].
    destruct (has_space _); by intros [= <-].
  - intros [= <-]. simpl. eapply get_option_tuples_In. rewrite Hg. by left.
  - done.
Qed.

Lemma classify_of_parser p argv args :
  classify p argv = inr args -> Forall (fun sc => of_parser p sc.2) args.
Proof.
  revert args. induction argv as [|arg rest IH]; intros args; simpl.
  - intros [= <-]. constructor.
  - destruct (String.eqb arg "--").
    + intros [= <-]. constructor; [done|].
      apply Forall_forall. intros [s c] H.
      apply list_elem_of_fmap in H as (s' & [= _ ->] & _). done.
    + destruct (parse_optional p arg) as [e|c] eqn:Hc; [done|].
      destruct (classify p rest) as [e|cs]; [done|].
      intros [= <-]. constructor; [|by apply IH].
      by eapply parse_optional_of_parser.
Qed.

Lemma explicit_of_parser p e : forall a short l pending,
  In a (actions p) ->
  explicit p a short e = inr (l, pending) ->
  Forall (fun av => In av.1 (actions p)) l
  /\ (forall a', pending = Some a' -> In a' (actions p)).
Proof.
  induction e as [|c e' IH]; intros a short l pending Ha; simpl.
  - destruct (nargs a); [by destruct short|].
    intros [= <- <-]. split; [by repeat constructor|done].
  - destruct (nargs a) eqn:Hn; [|intros [= <- <-]; split;
                                   [by repeat constructor|done]].
    destruct short; [|done].
    destruct (lookup_option p _) as [a'|] eqn:Hl; [|done].
    apply lookup_option_In in Hl.
    destruct e' as [|c' e''].
    + intros [= <- <-]. split.
      * constructor; [done|]. destruct (nargs a' =? 0)%nat;
          by repeat constructor.
      * intros a''. destruct (nargs a' =? 0)%nat; [done|].
        by intros [= <-].
    + destruct (explicit p a' true (String c' e'')) as [err|[l' pending']]
        eqn:He; [done|].
      intros [= <- <-]. destruct (IH a' true l' pending' Hl He) as [Hl' Hp].
      split; [by constructor|done].
Qed.

Section Invariant.

Variable p : ArgumentParser.
Variable I : state -> Prop.

Hypothesis I_take : forall a v st st',
  In a (actions p) -> I st -> take_action p a v st = inr st' -> I st'.
Hypothesis I_positional : forall st a t arg,
  I st -> todo st = a :: t ->
  I {| ns := <[dest a := VStr arg]> (ns st); seen := dest a :: seen st;
       todo := t; extras := extras st |}.
Hypothesis I_extras : forall st x,
  I st ->
  I {| ns := ns st; seen := seen st; todo := todo st; extras := x |}.

Lemma take_actions_inv l : forall st st',
  Forall (fun av => In av.1 (actions p)) l ->
  I st -> take_actions p l st = inr st' -> I st'.
Proof.
  induction l as [|[a v] l IH]; intros st st' Hl Hst; simpl.
  - by intros [= <-].
  - inversion Hl; subst.
    destruct (take_action p a v st) as [e|st1] eqn:Ht; [done|].
    apply IH; [done|]. by eapply I_take.
Qed.

Lemma consume_inv_bounded n : forall args st st',
  (length args <= n)%nat ->
  Forall (fun sc => of_parser p sc.2) args ->
  I st -> consume p args st = inr st' -> I st'.
Proof.
  induction n as [|n IH]; intros args st st' Hlen Hargs Hst.
  - destruct args; [|simpl in Hlen; lia]. by intros [= <-].
  - destruct args as [|[arg c] rest]; [by intros [= <-]|].
    simpl in Hlen. inversion Hargs as [|? ? Hc Hrest]; subst.
    simpl in Hc. destruct c as [|a o e| |]; simpl.
    + destruct (todo st) as [|a t] eqn:Htodo.
      * apply IH; [lia|done|]. rewrite <- Htodo. by apply (I_extras st).
      * apply IH; [lia|done|]. by apply I_positional.
    + set (r := match e with
                | Some e0 => explicit p a (is_short o) e0
                | None => inr (if (nargs a =? 0)%nat
                               then ([(a, None)], None)
                               else ([], Some a))
                end).
      assert (forall l pending, r = inr (l, pending) ->
                Forall (fun av => In av.1 (actions p)) l
                /\ (forall a', pending = Some a' -> In a' (actions p)))
        as Hr.
      { intros l pending. subst r. destruct e as [e0|].
        - by apply explicit_of_parser.
        - destruct (nargs a =? 0)%nat; intros [= <- <-].
          + split; [by repeat constructor|done].
          + split; [constructor|by intros a' [= <-]]. }
      destruct r as [err|[l [pending|]]]; [done| |].
      * destruct (Hr l (Some pending) eq_refl) as [Hl Hp].
        destruct rest as [|[v [| | |]] rest']; try done.
        destruct (take_actions p (l ++ [(pending, Some v)]) st)
          as [err|st1] eqn:Ht; [done|].
        inversion Hrest; subst.
        apply IH; [simpl in Hlen; lia|done|].
        eapply take_actions_inv; [|exact Hst|exact Ht].
        apply Forall_app. split; [done|].
        constructor; [|constructor]. by apply Hp.
      * destruct (Hr l None eq_refl) as [Hl _].
        destruct (take_actions p l st) as [err|st1] eqn:Ht; [done|].
        apply IH; [lia|done|]. by eapply take_actions_inv.
    + apply IH; [lia|done|]. by apply (I_extras st).
    + apply IH; [lia|done|done].
Qed.

(** What holds of the initial state and is kept by every action holds
    of the state the namespace is taken from. *)
Lemma parse_args_inv argv args :
  I (initial p) ->
  parse_args p argv = inr args ->
  exists st, I st /\ complete p st = true /\ args = ns st.
Proof.
  intros Hi. unfold parse_args.
  destruct (classify p argv) as [e|cs] eqn:Hc; [done|].
  destruct (consume p cs (initial p)) as [e|st] eqn:Hs; [done|].
  destruct (complete p st) eqn:Hcomp; [|done].
  intros [= <-]. exists st. split; [|done].
  eapply (consume_inv_bounded (length cs)); [done| |exact Hi|exact Hs].
  by eapply classify_of_parser.
Qed.

End Invariant.

End argparse_facts.

Section CommandLine.

Import argparse argparse_facts.
Local Open Scope string_scope.

Lemma given_other st d d' v t x :
  d' <> d -> given st d ->
  given {| ns := <[d' := v]> (ns st); seen := d' :: seen st; todo := t;
           extras := x |} d.
Proof.
  intros Hne [[Hn Hs]|(s & Hn & Hs)]; [left|right; exists s]; simpl;
    rewrite lookup_insert_ne by done; (split; [done|]).
  - intros [?|?]%elem_of_cons; congruence.
  - by right.
Qed.

Lemma devel_inv_other st d v t x :
  d <> "name" -> d <> "address" ->
  Forall (fun a => dest a <> "name" /\ dest a <> "address") t ->
  devel_inv st ->
  devel_inv {| ns := <[d := v]> (ns st); seen := d :: seen st; todo := t;
               extras := x |}.
Proof.
  intros Hn Ha Ht (_ & Gn & Ga & Hx). split; [done|].
  split; [by apply given_other|]. split; [by apply given_other|].
  simpl. intros [[?|?]%elem_of_cons [?|?]%elem_of_cons]; try congruence.
  by apply Hx.
Qed.

Lemma devel_inv_take a v st st' :
  In a (actions devel_notifications.parser) ->
  devel_inv st ->
  take_action devel_notifications.parser a v st = inr st' ->
  devel_inv st'.
Proof.
  intros Ha Hst. pose proof Hst as (Ht & Gn & Ga & Hx).
  unfold take_action.
  destruct Ha as [<-|[<-|[<-|[<-|[<-|[<-|[<-|[]]]]]]]];
    match goal with
    | |- context [conflicts ?p ?d] =>
        let c := eval vm_compute in (conflicts p d) in
        change (conflicts p d) with c
    end; simpl.
  - done.
  - case_bool_decide as Hc; [done|]. destruct v as [s|]; [|done].
    intros [= <-]. rewrite Exists_cons, Exists_nil in Hc.
    assert ("address" ∉ seen st) as Hna by tauto.
    split; [done|]. split; [|split]; simpl.
    + right. exists s. simpl. rewrite lookup_insert_eq. split; [done|].
      by left.
    + destruct Ga as [[Hn Hs]|(s' & _ & Hs)]; [|done]. left. simpl.
      rewrite lookup_insert_ne by done. split; [done|].
      intros [?|?]%elem_of_cons; [done|tauto].
    + intros [_ [?|?]%elem_of_cons]; [done|tauto].
  - case_bool_decide as Hc; [done|]. destruct v as [s|]; [|done].
    intros [= <-]. rewrite Exists_cons, Exists_nil in Hc.
    assert ("name" ∉ seen st) as Hnn by tauto.
    split; [done|]. split; [|split]; simpl.
    + destruct Gn as [[Hn Hs]|(s' & _ & Hs)]; [|done]. left. simpl.
      rewrite lookup_insert_ne by done. split; [done|].
      intros [?|?]%elem_of_cons; [done|tauto].
    + right. exists s. simpl. rewrite lookup_insert_eq. split; [done|].
      by left.
    + intros [[?|?]%elem_of_cons _]; [done|tauto].
  - intros [= <-]. by apply devel_inv_other.
  - destruct v as [s|]; [|done]. intros [= <-]. by apply devel_inv_other.
  - destruct v as [s|]; [|done]. intros [= <-]. by apply devel_inv_other.
  - intros [= <-]. by apply devel_inv_other.
Qed.

Lemma devel_inv_initial : devel_inv (initial devel_notifications.parser).
Proof.
  split; [|split; [|split]].
  - by repeat constructor.
  - left. split; [by vm_compute|]. simpl. by intros ?%elem_of_nil.
  - left. split; [by vm_compute|]. simpl. by intros ?%elem_of_nil.
  - simpl. by intros [?%elem_of_nil _].
Qed.

Lemma enable_inv_take a v st st' :
  In a (actions enable_response.parser) ->
  enable_inv st ->
  take_action enable_response.parser a v st = inr st' ->
  enable_inv st'.
Proof.
  intros Ha [Ht Hn]. unfold take_action.
  change (conflicts enable_response.parser (dest a)) with (@nil string).
  rewrite bool_decide_eq_false_2 by (intros ?%Exists_nil; done).
  destruct Ha as [<-|[<-|[<-|[<-|[<-|[<-|[]]]]]]]; simpl;
    try done; try destruct v as [s|]; try done; intros [= <-];
    (split; [done|]); simpl.
  1: { intros _. exists s. by rewrite lookup_insert_eq. }
  all: intros [?|?]%elem_of_cons; [done|];
    rewrite lookup_insert_ne by done; by apply Hn.
Qed.

(** C7, as the code has it.  [devel_notifications.py] takes the device
    as a name or else an address: a command line is accepted only with
    exactly one of [--name] and [--address], and the other attribute is
    [None].  [enable_response.py] requires [--name]: every command line
    it accepts gives the name, and [--address] is a further option that
    may or may not come with it. *)
Theorem device_selector :
  (forall argv args,
      parse_args devel_notifications.parser argv = inr args ->
      ((exists s, args !! "name" = Some (VStr s))
       /\ args !! "address" = Some VNone)
      \/ (args !! "name" = Some VNone
          /\ exists s, args !! "address" = Some (VStr s)))
  /\ (forall argv args,
        parse_args enable_response.parser argv = inr args ->
        exists s, args !! "name" = Some (VStr s)).
Proof.
  split.
  - intros argv args Hp.
    assert (exists st, devel_inv st
              /\ complete devel_notifications.parser st = true
              /\ args = ns st) as (st & (_ & Gn & Ga & Hx) & Hc & ->).
    { apply (parse_args_inv devel_notifications.parser devel_inv)
        with (argv := argv).
      - exact devel_inv_take.
      - intros st a t arg Hst Htodo. pose proof Hst as (Ht & _).
        rewrite Htodo in Ht. inversion Ht as [|? ? [? ?] Ht']; subst.
        by apply devel_inv_other.
      - by intros st x (? & ? & ? & ?).
      - apply devel_inv_initial.
      - exact Hp. }
    unfold complete in Hc. simpl in Hc.
    apply andb_prop in Hc as [[_ Hg]%andb_prop _].
    rewrite andb_true_r in Hg. apply bool_decide_eq_true in Hg.
    rewrite !Exists_cons, Exists_nil in Hg.
    destruct Gn as [[Hn Hs]|(s & Hn & Hs)];
      destruct Ga as [[Hn' Hs']|(s' & Hn' & Hs')].
    + tauto.
    + right. eauto.
    + left. eauto.
    + tauto.
  - intros argv args Hp.
    assert (exists st, enable_inv st
              /\ complete enable_response.parser st = true
              /\ args = ns st) as (st & (_ & Hn) & Hc & ->).
    { apply (parse_args_inv enable_response.parser enable_inv)
        with (argv := argv).
      - exact enable_inv_take.
      - intros st a t arg [Ht Hn] Htodo. rewrite Htodo in Ht.
        inversion Ht; subst. split; [done|]. simpl.
        intros [?|?]%elem_of_cons; [done|].
        rewrite lookup_insert_ne by done. by apply Hn.
      - by intros st x [? ?].
      - split; [by repeat constructor|]. simpl. by intros ?%elem_of_nil.
      - exact Hp. }
    unfold complete in Hc. simpl in Hc.
    apply andb_prop in Hc as [[Hr _]%andb_prop _].
    apply andb_prop in Hr as [Hr _].
    apply bool_decide_eq_true in Hr. by apply Hn.
Qed.

End CommandLine.

Section CommandLineExamples.

Import argparse.
Local Open Scope string_scope.

Lemma selector_inr p argv n a :
  selector p argv = inr (n, a) ->
  exists args, parse_args p argv = inr args
               /\ args !! "name" = n /\ args !! "address" = a.
Proof.
  unfold selector. destruct (parse_args p argv) as [[]|args];
    try done. intros [= <- <-]. by exists args.
Defined.

Lemma device_selector_witness :
  (exists args,
      parse_args devel_notifications.parser
        ["--address"; "AA:BB"; "2A57"; "2A59"] = inr args
      /\ (((exists s, args !! "name" = Some (VStr s))
           /\ args !! "address" = Some VNone)
          \/ (args !! "name" = Some VNone
              /\ exists s, args !! "address" = Some (VStr s))))
  /\ (exists args,
        parse_args enable_response.parser ["--name"; "Nano"; "2A57"; "2A59"]
        = inr args
        /\ exists s, args !! "name" = Some (VStr s)).
Proof.
  split.
  - destruct (selector_inr devel_notifications.parser
                ["--address"; "AA:BB"; "2A57"; "2A59"]
                (Some VNone) (Some (VStr "AA:BB")))
      as (args & Hp & _); [vm_compute; reflexivity|].
    exists args. split; [exact Hp|].
    exact (proj1 device_selector _ args Hp).
  - destruct (selector_inr enable_response.parser
                ["--name"; "Nano"; "2A57"; "2A59"]
                (Some (VStr "Nano")) (Some VNone))
      as (args & Hp & _); [vm_compute; reflexivity|].
    exists args. split; [exact Hp|].
    exact (proj2 device_selector _ args Hp).
Defined.

(** What each parser makes of the ways to name the device. *)
Example selectors :
  selector devel_notifications.parser ["--name"; "Nano"; "2A57"; "2A59"]
  = inr (Some (VStr "Nano"), Some VNone)
  /\ selector devel_notifications.parser
       ["--address"; "AA:BB"; "2A57"; "2A59"]
     = inr (Some VNone, Some (VStr "AA:BB"))
  /\ selector devel_notifications.parser
       ["--name"; "Nano"; "--address"; "AA:BB"; "2A57"; "2A59"]
     = inl 2
  /\ selector devel_notifications.parser ["2A57"; "2A59"] = inl 2
  /\ selector enable_response.parser ["--name"; "Nano"; "2A57"; "2A59"]
     = inr (Some (VStr "Nano"), Some VNone)
  /\ selector enable_response.parser ["2A57"; "2A59"] = inl 2.
Proof. vm_compute. by repeat split. Qed.

(** C7 fails as stated: [enable_response.py] accepts [--name] together
    with [--address], and rejects [--address] alone. *)
Lemma name_and_address_together :
  (exists args,
      parse_args enable_response.parser
        ["--name"; "Nano"; "--address"; "AA:BB"; "2A57"; "2A59"] = inr args
      /\ args !! "name" = Some (VStr "Nano")
      /\ args !! "address" = Some (VStr "AA:BB"))
  /\ parse_args enable_response.parser
       ["--address"; "AA:BB"; "2A57"; "2A59"] = inl (SystemExit 2).
Proof.
  split.
  - apply selector_inr. vm_compute. reflexivity.
  - vm_compute. reflexivity.
Qed.

End CommandLineExamples.

(** * More about the dispatcher *)

Section DispatcherMore.

Import enable_response.

Variable Py_UNICODE_ISSPACE : Z -> bool.
Variable Py_UNICODE_TODECIMAL : Z -> option Z.

Abbreviation float := (float Py_UNICODE_ISSPACE Py_UNICODE_TODECIMAL).
Abbreviation parse := (parse Py_UNICODE_ISSPACE Py_UNICODE_TODECIMAL).
Abbreviation turn := (turn Py_UNICODE_ISSPACE Py_UNICODE_TODECIMAL).
Abbreviation process_queue_and_write :=
  (process_queue_and_write Py_UNICODE_ISSPACE Py_UNICODE_TODECIMAL).
Abbreviation prepare := (prepare Py_UNICODE_ISSPACE Py_UNICODE_TODECIMAL).
Abbreviation turn_effects :=
  (turn_effects Py_UNICODE_ISSPACE Py_UNICODE_TODECIMAL).
Abbreviation writes := (writes Py_UNICODE_ISSPACE Py_UNICODE_TODECIMAL).
Abbreviation wanted := (wanted Py_UNICODE_ISSPACE Py_UNICODE_TODECIMAL).
Abbreviation turn_cons :=
  (turn_cons Py_UNICODE_ISSPACE Py_UNICODE_TODECIMAL).
Abbreviation turn_empty :=
  (turn_empty Py_UNICODE_ISSPACE Py_UNICODE_TODECIMAL).
Abbreviation process_S := (process_S Py_UNICODE_ISSPACE Py_UNICODE_TODECIMAL).

(** X1.  A payload is parsed exactly when splitting it at the commas gives
    six fields that [float] accepts one by one, and then the reading holds
    the six values in the order of the fields: there is no reading from a
    part of a payload, and none from more than six fields. *)
Theorem parse_exactly_six_numbers message r :
  parse message = inr r <->
  exists t1 t2 t3 t4 t5 t6,
    Str.split 44 message = [t1; t2; t3; t4; t5; t6]
    /\ float t1 = Some (gx r) /\ float t2 = Some (gy r)
    /\ float t3 = Some (gz r) /\ float t4 = Some (ax r)
    /\ float t5 = Some (ay r) /\ float t6 = Some (az r).
Proof.
  rewrite parse_inr. split.
  - intros HF. apply Forall2_length in HF as Hl.
    destruct (Str.split 44 message)
      as [|t1 [|t2 [|t3 [|t4 [|t5 [|t6 [|t7 ts]]]]]]]; try done.
    exists t1, t2, t3, t4, t5, t6. split; [done|].
    repeat match goal with
           | H : Forall2 _ (_ :: _) (_ :: _) |- _ =>
               apply Forall2_cons_1 in H as [? H]
           end.
    by repeat split.
  - intros (t1 & t2 & t3 & t4 & t5 & t6 & -> & ? & ? & ? & ? & ? & ?).
    by repeat constructor.
Qed.

(** X2.  The two routes of a turn exclude each other: a payload that parses
    as a reading never contains the keyword [BLINK], whatever the Unicode
    digits and spaces in it, so no sensor payload is taken for a command. *)
Theorem reading_is_no_command message r :
  parse message = inr r -> contains (lit "BLINK") message = false.
Proof. apply parse_no_keyword. Qed.

Lemma prepare_error message pre e :
  prepare message = (pre, inl e) -> is_ValueError e = true.
Proof.
  unfold prepare. destruct (contains _ _).
  - destruct (encode_utf8 message); [done|]. by intros [= _ <-].
  - destruct (parse message) as [e'|r] eqn:Hp.
    + intros [= _ <-]. by eapply parse_inl.
    + by rewrite encode_command_for.
Qed.

Lemma only_Exceptions_tail f : only_Exceptions f -> only_Exceptions (tail f).
Proof. destruct f; [done|]. by inversion 1. Qed.

Lemma turn_effects_survives led message f :
  only_Exceptions f ->
  (turn_effects led message (mjoin (head f))).2 = Ok tt.
Proof.
  intros Hf. unfold turn_effects.
  destruct (prepare message) as [pre [e|[command data]]] eqn:Hp; simpl.
  - unfold caught. by rewrite (prepare_error _ _ _ Hp).
  - destruct f as [|[e|] f]; simpl; try done.
    inversion Hf as [|? ? He _]; subst. unfold caught.
    destruct (is_ValueError e); [done|]. by rewrite He.
Qed.

(** X3.  Errors do not stop the dispatcher: as long as no call into the BLE
    library is cancelled, every turn takes one message and the loop goes
    on, whether the message was written, was rejected by the parse or made
    the write fail.  After [n] turns the first [n] messages are gone, and
    the loop is still running, or waits on the empty queue when the queue
    had fewer than [n] messages. *)
Theorem dispatcher_survives_errors led n w :
  only_Exceptions (faults w) ->
  (process_queue_and_write n led w).1
  = (if (n <=? length (queue w))%nat then Running else Blocked)
  /\ (process_queue_and_write n led w).2.(queue) = drop n (queue w).
Proof.
  revert w. induction n as [|n IH]; intros w Hf.
  - split; [done|by rewrite drop_0].
  - rewrite process_S. destruct (queue w) as [|m q] eqn:Hq.
    + by rewrite (turn_empty led w Hq).
    + rewrite (turn_cons led w m q Hq).
      rewrite (turn_effects_survives led m (faults w) Hf).
      match goal with |- context [process_queue_and_write n led ?w1] =>
        destruct (IH w1) as [Hr Hk] end.
      { simpl. destruct (writes m); [by apply only_Exceptions_tail|done]. }
      by rewrite Hr, Hk.
Qed.

Lemma slept_app a b : slept (a ++ b) = slept a + slept b.
Proof.
  induction a as [|ev a IH]; [done|]. simpl. rewrite IH.
  destruct ev; lia.
Qed.

Lemma turn_effects_slept led message fault :
  slept (turn_effects led message fault).1 = 1.
Proof.
  unfold turn_effects.
  destruct (prepare_pre Py_UNICODE_ISSPACE Py_UNICODE_TODECIMAL message)
    as [Hpre|[l Hpre]];
    destruct (prepare message) as [pre [e|[command data]]];
    simpl in Hpre; subst pre; simpl.
  all: try destruct fault as [e|].
  all: try (destruct (caught_cases e) as [[l' ->]|[-> _]]); reflexivity.
Qed.

(** X4.  One second is slept for every message taken from the queue, no
    more and no less: the [finally] clause runs after a write, after a
    rejected payload, after a failed write and before a cancellation leaves
    the loop, and it does not run while the loop waits for a message. *)
Theorem one_sleep_per_message led n w :
  exists evs,
    (process_queue_and_write n led w).2.(trace) = trace w ++ evs
    /\ (length (process_queue_and_write n led w).2.(queue)
        <= length (queue w))%nat
    /\ slept evs
       = Z.of_nat (length (queue w)
                   - length (process_queue_and_write n led w).2.(queue)).
Proof.
  revert w. induction n as [|n IH]; intros w.
  - exists []. simpl. rewrite app_nil_r. split; [done|]. split; [done|].
    by rewrite Nat.sub_diag.
  - rewrite process_S. destruct (queue w) as [|m q] eqn:Hq.
    + rewrite (turn_empty led w Hq). exists []. simpl.
      rewrite app_nil_r, Hq. by repeat split.
    + rewrite (turn_cons led w m q Hq).
      pose proof (turn_effects_slept led m (mjoin (head (faults w)))) as Hs.
      destruct (turn_effects_outcome Py_UNICODE_ISSPACE Py_UNICODE_TODECIMAL
                  led m (mjoin (head (faults w)))) as [Hr|(e & Hr & He)];
        rewrite Hr.
      * match goal with |- context [process_queue_and_write n led ?w1] =>
          destruct (IH w1) as (evs & Ht & Hl & Hsl) end.
        simpl in Ht, Hl, Hsl.
        exists ((turn_effects led m (mjoin (head (faults w)))).1 ++ evs).
        rewrite Ht, slept_app, Hs, Hsl. simpl.
        split; [by rewrite app_assoc|]. split; lia.
      * exists (turn_effects led m (mjoin (head (faults w)))).1.
        simpl. rewrite Hs. split; [done|]. split; lia.
Qed.

Lemma startswith_encode p s d :
  Forall (fun c => in_range 0 0x7F c = true) p ->
  startswith p s = true -> encode_utf8 s = Some d -> startswith p d = true.
Proof.
  intros Hp. revert s d. induction Hp as [|a p Ha Hp IH]; intros s d; [done|].
  destruct s as [|b s]; [done|]. simpl.
  intros [Hab Hs]%andb_prop. apply Z.eqb_eq in Hab. subst b.
  rewrite (encode_char_1 a Ha).
  destruct (encode_utf8 s) as [r|] eqn:Hr; [|done].
  intros [= <-]. simpl. rewrite Z.eqb_refl. by apply (IH s).
Qed.

Lemma contains_app_r p a b :
  contains p b = true -> contains p (a ++ b) = true.
Proof.
  intros Hb. induction a as [|x a IH]; [done|].
  simpl. rewrite IH. apply orb_true_r.
Qed.

Lemma contains_startswith p s : startswith p s = true -> contains p s = true.
Proof. intros H. destruct s; simpl; by rewrite H. Qed.

(** An ASCII keyword found in a string is found in its UTF-8 bytes. *)
Lemma contains_encode p s : forall d,
  Forall (fun c => in_range 0 0x7F c = true) p ->
  contains p s = true -> encode_utf8 s = Some d -> contains p d = true.
Proof.
  induction s as [|c s IH]; intros d Hp Hc He.
  - simpl in Hc. rewrite orb_false_r in Hc.
    apply contains_startswith. by eapply startswith_encode.
  - simpl in Hc. apply orb_prop in Hc as [Hc|Hc].
    + apply contains_startswith. by eapply startswith_encode.
    + simpl in He. destruct (encode_char c) as [bs|]; [|done].
      destruct (encode_utf8 s) as [r|] eqn:Hr; [|done].
      injection He as <-. apply contains_app_r. by apply IH.
Qed.

Lemma wanted_keyword led message op :
  wanted led message = Some op ->
  exists data, op = write_gatt_char led data
               /\ contains (lit "BLINK") data = true.
Proof.
  unfold wanted, prepare.
  destruct (contains (lit "BLINK") message) eqn:Hc.
  - destruct (encode_utf8 message) as [data|] eqn:He; [|done].
    intros [= <-]. exists data. split; [done|].
    eapply contains_encode; [|exact Hc|exact He]. by repeat constructor.
  - destruct (parse message) as [e|r]; [done|].
    rewrite encode_command_for. intros [= <-].
    exists (command_for r). split; [done|].
    unfold command_for. by destruct (Float.gt _ _).
Qed.

(** X5.  All the dispatcher ever asks of the BLE library is a write to the
    LED characteristic, and every payload it writes contains the bytes of
    [BLINK]: either a queued message that carries the keyword or one of the
    two commands.  It never writes a sensor payload or an error text. *)
Theorem dispatcher_writes_only_commands led n w :
  exists evs,
    (process_queue_and_write n led w).2.(trace) = trace w ++ evs
    /\ Forall (fun op => exists data,
                 op = write_gatt_char led data
                 /\ contains (lit "BLINK") data = true) (ble_ops evs).
Proof.
  destruct (process_fifo Py_UNICODE_ISSPACE Py_UNICODE_TODECIMAL led n w)
    as (k & evs & Ht & _ & Ho & _).
  exists evs. split; [done|]. rewrite Ho. apply Forall_forall.
  intros op (m & _ & Hm)%list_elem_of_omap. by eapply wanted_keyword.
Qed.

(** X6.  A notification that reaches the dispatcher through the handler:
    when its text carries the keyword, the bytes written are the bytes of
    the notification, unchanged; when its text parses as a reading, the
    command chosen from the reading is written; otherwise nothing is
    written. *)
Theorem notification_through_dispatcher led w raw decoded :
  queue w = [] ->
  decode_utf8 raw = Some decoded ->
  exists evs,
    ((devel_notifications.handler raw;; turn led) w).2.(trace)
    = trace w ++ Log (info_Received_notification decoded) :: evs
    /\ ((devel_notifications.handler raw;; turn led) w).2.(queue) = []
    /\ ble_ops evs
       = if contains (lit "BLINK") decoded then [write_gatt_char led raw]
         else match parse decoded with
              | inr r => [write_gatt_char led (command_for r)]
              | inl _ => []
              end.
Proof.
  intros Hq Hd. unfold bind. rewrite (handler_decoded w raw decoded Hd).
  rewrite (turn_cons led _ decoded []); [|simpl; by rewrite Hq].
  eexists. simpl. rewrite <- app_assoc. split; [reflexivity|].
  split; [done|].
  rewrite (turn_effects_ble_ops Py_UNICODE_ISSPACE Py_UNICODE_TODECIMAL).
  unfold wanted, prepare. rewrite (encode_decode raw decoded Hd).
  destruct (contains (lit "BLINK") decoded); [done|].
  destruct (parse decoded) as [e|r]; [done|].
  by rewrite encode_command_for.
Qed.

End DispatcherMore.

(** * More about the notifications *)

Section NotificationsMore.

Import devel_notifications.

Lemma handler_undecodable w data :
  decode_utf8 data = None ->
  handler data w
  = (Ok tt, emits [Log (error_Error_handling_notification UnicodeDecodeError)]
              w).
Proof.
  intros Hd. unfold handler, try_except, bind, or_raise. by rewrite Hd.
Qed.

(** Whatever the notifications, the handler returns each time: the ones
    that decode are queued in order, the others are left out, and each one
    leaves one record in the log. *)
Lemma deliver_all notifications w :
  (deliver notifications w).1 = Ok tt
  /\ (deliver notifications w).2.(queue)
     = queue w ++ omap decode_utf8 notifications
  /\ (deliver notifications w).2.(trace)
     = trace w ++ ((fun data => Log (handler_record data)) <$> notifications)
  /\ (deliver notifications w).2.(faults) = faults w.
Proof.
  revert w. induction notifications as [|data ns IH]; intros w.
  - simpl. by rewrite !app_nil_r.
  - simpl. unfold bind. unfold handler_record at 1.
    destruct (decode_utf8 data) as [s|] eqn:Hd.
    + rewrite (handler_decoded w data s Hd).
      destruct (IH (emits [Log (info_Received_notification s)]
                      (set_queue (queue w ++ [s]) w))) as (Hr & Hq & Ht & Hf).
      rewrite Hr, Hq, Ht, Hf. simpl. by rewrite <- !app_assoc.
    + rewrite (handler_undecodable w data Hd).
      destruct (IH (emits [Log (error_Error_handling_notification
                                  UnicodeDecodeError)] w))
        as (Hr & Hq & Ht & Hf).
      rewrite Hr, Hq, Ht, Hf. simpl. by rewrite <- !app_assoc.
Qed.


Lemma command_loop_empty led w :
  queue w = [] -> command_loop led w = (Ok tt, emits [Sleep 1] w).
Proof.
  intros Hq. destruct w as [q a f t]. simpl in Hq. subst q. reflexivity.
Qed.

(** X8.  On an empty queue the command loop of [devel_notifications.main]
    does not wait for an item: every turn only sleeps one second, no call
    is made into the BLE library, and the loop goes on. *)
Theorem command_loop_idles led n w :
  queue w = [] ->
  while_True n (command_loop led) w
  = (Running, emits (replicate n (Sleep 1)) w).
Proof.
  revert w. induction n as [|n IH]; intros w Hq.
  - simpl. unfold emits. rewrite app_nil_r. by destruct w.
  - simpl. unfold bind. rewrite (command_loop_empty led w Hq).
    rewrite IH by done. by rewrite emits_emits.
Qed.

(** The loop writes the items of the queue in order, one per turn, until
    a write fails. *)
Lemma command_loop_run led n : forall w datas,
  Forall2 (fun command data => encode_utf8 command = Some data)
    (queue w) datas ->
  exists k evs,
    (while_True n (command_loop led) w).2.(trace) = trace w ++ evs
    /\ (while_True n (command_loop led) w).2.(queue) = drop k (queue w)
    /\ ble_ops evs = write_gatt_char led <$> take k datas
    /\ match (while_True n (command_loop led) w).1 with
       | Running => k = min n (length (queue w))
       | Raise e => (0 < k)%nat /\ mjoin (faults w !! (k - 1)%nat) = Some e
       | _ => False
       end.
Proof.
  induction n as [|n IH]; intros w datas HF.
  - exists 0%nat, []. simpl. by rewrite app_nil_r.
  - simpl. unfold bind. destruct (queue w) as [|command q] eqn:Hq.
    + rewrite (command_loop_empty led w Hq).
      inversion HF; subst.
      destruct (IH (emits [Sleep 1] w) []) as (k & evs & Ht & Hqq & Ho & Hr).
      { simpl. rewrite Hq. constructor. }
      exists k, (Sleep 1 :: evs). rewrite Ht, Hqq. simpl. rewrite Hq.
      rewrite <- app_assoc. split; [done|]. split; [done|].
      split; [by rewrite take_nil in *|].
      destruct (while_True n (command_loop led) (emits [Sleep 1] w)).1;
        try done.
      simpl in Hr. rewrite Hq in Hr. simpl in Hr. lia.
    + inversion HF as [|? data ? ds He HF']; subst.
      rewrite (command_loop_cons led w command q data Hq He).
      destruct (faults w) as [|[e|] f] eqn:Hf; simpl.
      * destruct (IH (emits [Log (info_Sending_command command);
                             Ble (write_gatt_char led data) None; Sleep 1]
                        (set_faults [] (set_queue q w))) ds)
          as (k & evs & Ht & Hqq & Ho & Hr); [done|].
        exists (S k), ([Log (info_Sending_command command);
                        Ble (write_gatt_char led data) None; Sleep 1] ++ evs).
        rewrite Ht, Hqq. simpl. rewrite <- app_assoc. split; [done|].
        split; [done|]. rewrite Ho. split; [done|].
        destruct (while_True n _ _).1; try done; simpl in Hr.
        -- by destruct Hr as [_ Hl].
        -- lia.
      * exists 1%nat, [Log (info_Sending_command command);
                       Ble (write_gatt_char led data) (Some e)].
        simpl. split; [done|]. split; [done|].
        split; [done|]. split; [lia|done].
      * destruct (IH (emits [Log (info_Sending_command command);
                             Ble (write_gatt_char led data) None; Sleep 1]
                        (set_faults f (set_queue q w))) ds)
          as (k & evs & Ht & Hqq & Ho & Hr); [done|].
        exists (S k), ([Log (info_Sending_command command);
                        Ble (write_gatt_char led data) None; Sleep 1] ++ evs).
        rewrite Ht, Hqq. simpl. rewrite <- app_assoc. split; [done|].
        split; [done|]. rewrite Ho. split; [done|].
        destruct (while_True n _ _).1; try done; simpl in Hr.
        -- destruct Hr as [Hk Hl]. split; [lia|].
           rewrite Nat.sub_0_r. destruct k; [lia|].
           simpl in Hl. by rewrite Nat.sub_0_r in Hl.
        -- lia.
Qed.

(** X9.  [devel_notifications.main] echoes: of the notifications its
    handler has queued, the command loop writes the bytes of each one back
    to the LED characteristic, unchanged and in the order of arrival, one
    per turn, until a write fails; the exception of that write leaves the
    loop. *)
Theorem notifications_are_echoed led n w notifications decoded :
  queue w = [] ->
  Forall2 (fun data s => decode_utf8 data = Some s) notifications decoded ->
  exists k evs,
    ((deliver notifications;; while_True n (command_loop led)) w).2.(trace)
    = trace w ++ (Log <$> (info_Received_notification <$> decoded)) ++ evs
    /\ ble_ops evs = write_gatt_char led <$> take k notifications
    /\ match ((deliver notifications;;
               while_True n (command_loop led)) w).1 with
       | Running => k = min n (length notifications)
       | Raise e => (0 < k)%nat /\ mjoin (faults w !! (k - 1)%nat) = Some e
       | _ => False
       end.
Proof.
  intros Hq HF.
  destruct (deliver_all notifications w) as (Hr & Hqq & Ht & Hf).
  assert (omap decode_utf8 notifications = decoded) as Ho.
  { clear -HF. induction HF as [|data s ns ss Hd _ IH]; [done|].
    simpl. rewrite Hd. f_equal. exact IH. }
  assert ((fun data => Log (handler_record data)) <$> notifications
          = Log <$> (info_Received_notification <$> decoded)) as Hl.
  { clear -HF. induction HF as [|data s ns ss Hd _ IH]; [done|].
    rewrite !fmap_cons. unfold handler_record at 1. by rewrite Hd, IH. }
  unfold bind. destruct (deliver notifications w) as [r w1]. simpl in *.
  subst r. rewrite Hq, Ho in Hqq. simpl in Hqq.
  destruct (command_loop_run led n w1 notifications)
    as (k & evs & Ht' & _ & Hops & Hres).
  { rewrite Hqq. apply Forall2_flip.
    eapply Forall2_impl; [exact HF|]. intros data s. apply encode_decode. }
  exists k, evs. rewrite Ht', Ht, Hl, <- app_assoc. split; [done|].
  split; [done|]. rewrite Hf, Hqq in Hres.
  by rewrite (Forall2_length _ _ _ HF).
Qed.

End NotificationsMore.

(** * The calls of a piece of a script *)

Section Calls.










End Calls.

(** * The sessions with the device *)

Section Sessions.

Variable Py_UNICODE_ISSPACE : Z -> bool.
Variable Py_UNICODE_TODECIMAL : Z -> option Z.














End Sessions.

(** * The accepted namespaces *)

Section Typed.

Import argparse argparse_facts.
Local Open Scope string_scope.

Variable p : ArgumentParser.

Hypothesis one_kind : forall a a',
  In a (actions p) -> In a' (actions p) -> dest a = dest a' ->
  kind a = kind a'.
Hypothesis positional_store : forall a,
  In a (actions p) -> is_positional a = true -> kind a = store.






End Typed.

Section Parsers.

Import argparse.
Local Open Scope string_scope.







End Parsers.

(** * The scripts, from the command line to the device *)

Section Scripts.

Import argparse.
Local Open Scope string_scope.

Variable Py_UNICODE_ISSPACE : Z -> bool.
Variable Py_UNICODE_TODECIMAL : Z -> option Z.




End Scripts.

Section MoreExamples.

Import argparse.
Local Open Scope string_scope.

Lemma reading_is_no_command_witness :
  exists r,
    enable_response.parse ascii_ISSPACE ascii_TODECIMAL (lit "0.60,0,0,0,0,0")
    = inr r
    /\ contains (lit "BLINK") (lit "0.60,0,0,0,0,0") = false.
Proof.
  destruct (enable_response.parse ascii_ISSPACE ascii_TODECIMAL
              (lit "0.60,0,0,0,0,0")) as [e|r] eqn:Hp.
  - assert (match enable_response.parse ascii_ISSPACE ascii_TODECIMAL
                    (lit "0.60,0,0,0,0,0") with
            | inl _ => false
            | inr _ => true
            end = true) as Hok by (vm_compute; reflexivity).
    rewrite Hp in Hok. discriminate Hok.
  - exists r. split; [reflexivity|].
    exact (reading_is_no_command ascii_ISSPACE ascii_TODECIMAL
             (lit "0.60,0,0,0,0,0") r Hp).
Defined.

Lemma dispatcher_survives_errors_witness :
  (enable_response.process_queue_and_write ascii_ISSPACE ascii_TODECIMAL 3
     "2A59"
     (set_faults [Some (BleakError 1)]
        (world_with [lit "BLINK_1S"; lit "1,2"]))).1
  = (if (3 <=? length (queue (set_faults [Some (BleakError 1)]
                                (world_with [lit "BLINK_1S"; lit "1,2"]))))%nat
     then Running else Blocked)
  /\ (enable_response.process_queue_and_write ascii_ISSPACE ascii_TODECIMAL 3
        "2A59"
        (set_faults [Some (BleakError 1)]
           (world_with [lit "BLINK_1S"; lit "1,2"]))).2.(queue)
     = drop 3 (queue (set_faults [Some (BleakError 1)]
                        (world_with [lit "BLINK_1S"; lit "1,2"]))).
Proof.
  apply (dispatcher_survives_errors ascii_ISSPACE ascii_TODECIMAL "2A59" 3
           (set_faults [Some (BleakError 1)]
              (world_with [lit "BLINK_1S"; lit "1,2"]))).
  repeat constructor.
Defined.

Lemma notification_through_dispatcher_witness :
  exists evs,
    ((devel_notifications.handler (lit "BLINK_1S");;
      enable_response.turn ascii_ISSPACE ascii_TODECIMAL "2A59")
       (world_with [])).2.(trace)
    = (trace (world_with [])
         ++ Log (info_Received_notification (lit "BLINK_1S")) :: evs)%list
    /\ ((devel_notifications.handler (lit "BLINK_1S");;
         enable_response.turn ascii_ISSPACE ascii_TODECIMAL "2A59")
          (world_with [])).2.(queue) = []
    /\ ble_ops evs
       = if contains (lit "BLINK") (lit "BLINK_1S")
         then [write_gatt_char "2A59" (lit "BLINK_1S")]
         else match enable_response.parse ascii_ISSPACE ascii_TODECIMAL
                      (lit "BLINK_1S") with
              | inr r =>
                  [write_gatt_char "2A59" (enable_response.command_for r)]
              | inl _ => []
              end.
Proof.
  apply (notification_through_dispatcher ascii_ISSPACE ascii_TODECIMAL
           "2A59" (world_with []) (lit "BLINK_1S") (lit "BLINK_1S"));
    reflexivity.
Defined.

Lemma command_loop_idles_witness :
  while_True 2 (devel_notifications.command_loop "2A59") (world_with [])
  = (Running, emits (replicate 2 (Sleep 1)) (world_with [])).
Proof.
  apply (command_loop_idles "2A59" 2 (world_with [])). reflexivity.
Defined.

Lemma notifications_are_echoed_witness :
  exists k evs,
    ((deliver [lit "1,2"; [226; 130; 172]];;
      while_True 3 (devel_notifications.command_loop "2A59"))
       (world_with [])).2.(trace)
    = (trace (world_with [])
         ++ (Log <$> (info_Received_notification <$> [lit "1,2"; [8364]]))
         ++ evs)%list
    /\ ble_ops evs
       = write_gatt_char "2A59" <$> take k [lit "1,2"; [226; 130; 172]]
    /\ match ((deliver [lit "1,2"; [226; 130; 172]];;
               while_True 3 (devel_notifications.command_loop "2A59"))
                (world_with [])).1 with
       | Running => k = min 3 (length [lit "1,2"; [226; 130; 172]])
       | Raise e =>
           (0 < k)%nat
           /\ mjoin (faults (world_with []) !! (k - 1)%nat) = Some e
       | _ => False
       end.
Proof.
  apply (notifications_are_echoed "2A59" 3 (world_with [])
           [lit "1,2"; [226; 130; 172]] [lit "1,2"; [8364]]).
  - reflexivity.
  - repeat constructor.
Defined.



(** With [--address], the two processes of [enable_response.py] look for
    the device in two ways: the notification process by address, the
    writer by name. *)
Example two_scans :
  ble_ops (enable_response.run_notifications 0 (VStr "Nano") (VStr "AA:BB")
             (VStr "2A57") (VStr "2A59") (VBool false) (world_with [])).2.(trace)
  = [find_device_by_address "AA:BB" false]
  /\ ble_ops (enable_response.script ascii_ISSPACE ascii_TODECIMAL 0
                ["--name"; "Nano"; "--address"; "AA:BB"; "2A57"; "2A59"]
                (world_with [])).2.(trace)
     = [find_device_by_name (Some "Nano") None].
Proof. vm_compute. by split. Qed.

End MoreExamples.
